(** * Offline mutation queue (OfflineQueueManager) of the attendance app

    A shallow embedding of the class [OfflineQueueManager] (module
    [@/src/services/offline/queue-manager], whose text follows the mock API
    client in [src/services/api/client.ts]) together with the types it uses
    from [@/src/types] and the constants it reads from
    [src/config/constants.ts].

    JavaScript objects are shared by reference: the array [this.queue], the
    array [batch] built by [processQueue] and the parameter [item] of
    [processItem] and [handleConflict] all point at the same item objects.
    The embedding therefore keeps the item objects in a store ([heap]) and
    lets the queue and the batch hold references into it. *)

From Stdlib Require Import ZArith String.
From stdpp Require Import base tactics option list sorting gmap strings.

#[local] Set Warnings "-clear-no-such-hyp".

Open Scope string_scope.
Open Scope list_scope.
Open Scope Z_scope.

(** ** Values of type [unknown] and records [Record<string, unknown>] *)

Inductive jsval :=
  | JNull
  | JBool (b : bool)
  | JNum (n : Z)
  | JStr (s : string)
  | JOther (json : string).   (* arrays and nested objects, opaque to the queue *)

Abbreviation JsRecord := (gmap string jsval).

(** ** src/types: the offline queue types *)

(** [OfflineActionType] is a union of six string literals.  The union only
    exists at compile time, at run time the field holds a string. *)
Definition OfflineActionType := string.

Definition OfflineActionTypes : list OfflineActionType :=
  [ "attendance_check_in"; "attendance_check_out"; "task_update";
    "report_submit"; "location_update"; "photo_upload" ].

Inductive ConflictResolution := client_wins | server_wins | merge | manual.

Inductive Status := pending | syncing | failed | completed.

Global Instance Status_eq_dec : EqDecision Status.
Proof. solve_decision. Defined.

Global Instance ConflictResolution_eq_dec : EqDecision ConflictResolution.
Proof. solve_decision. Defined.

Record OfflineQueueItem := mkItem {
  id : string;
  type : OfflineActionType;
  payload : JsRecord;
  timestamp : Z;
  retryCount : Z;
  maxRetries : Z;
  priority : Z;
  conflictResolution : ConflictResolution;
  status : Status;
  errorMessage : option string;
  lastAttempt : option Z;
  serverVersion : option jsval;
  localVersion : Z
}.

(** Field assignments [obj.f = v]. *)
Definition set_payload (v : JsRecord) (q : OfflineQueueItem) : OfflineQueueItem :=
  mkItem (id q) (type q) v (timestamp q) (retryCount q) (maxRetries q)
         (priority q) (conflictResolution q) (status q) (errorMessage q)
         (lastAttempt q) (serverVersion q) (localVersion q).

Definition set_retryCount (v : Z) (q : OfflineQueueItem) : OfflineQueueItem :=
  mkItem (id q) (type q) (payload q) (timestamp q) v (maxRetries q)
         (priority q) (conflictResolution q) (status q) (errorMessage q)
         (lastAttempt q) (serverVersion q) (localVersion q).

Definition set_status (v : Status) (q : OfflineQueueItem) : OfflineQueueItem :=
  mkItem (id q) (type q) (payload q) (timestamp q) (retryCount q) (maxRetries q)
         (priority q) (conflictResolution q) v (errorMessage q)
         (lastAttempt q) (serverVersion q) (localVersion q).

Definition set_errorMessage (v : option string) (q : OfflineQueueItem) : OfflineQueueItem :=
  mkItem (id q) (type q) (payload q) (timestamp q) (retryCount q) (maxRetries q)
         (priority q) (conflictResolution q) (status q) v
         (lastAttempt q) (serverVersion q) (localVersion q).

Definition set_lastAttempt (v : option Z) (q : OfflineQueueItem) : OfflineQueueItem :=
  mkItem (id q) (type q) (payload q) (timestamp q) (retryCount q) (maxRetries q)
         (priority q) (conflictResolution q) (status q) (errorMessage q)
         v (serverVersion q) (localVersion q).

Definition set_serverVersion (v : option jsval) (q : OfflineQueueItem) : OfflineQueueItem :=
  mkItem (id q) (type q) (payload q) (timestamp q) (retryCount q) (maxRetries q)
         (priority q) (conflictResolution q) (status q) (errorMessage q)
         (lastAttempt q) v (localVersion q).

Definition set_localVersion (v : Z) (q : OfflineQueueItem) : OfflineQueueItem :=
  mkItem (id q) (type q) (payload q) (timestamp q) (retryCount q) (maxRetries q)
         (priority q) (conflictResolution q) (status q) (errorMessage q)
         (lastAttempt q) (serverVersion q) v.

Global Instance OfflineQueueItem_inhabited : Inhabited OfflineQueueItem :=
  populate (mkItem "" "" ∅ 0 0 0 0 client_wins pending None None None 0).

(** [ApiResponse<T>], with [data] cast by [executeAction] to
    [{ conflict?: boolean; serverData?: Record<string, unknown> } | undefined]. *)
Module ApiError.
Record t := mk { code : string; message : string }.
End ApiError.

Module ConflictData.
Record t := mk { conflict : option bool; serverData : option JsRecord }.
End ConflictData.

Module ApiResponse.
Record t := mk {
  success : bool;
  data : option ConflictData.t;
  error : option ApiError.t
}.
End ApiResponse.

(** ** src/config/constants: OFFLINE_CONFIG *)
Module OFFLINE_CONFIG.
Definition defaultMaxRetries : Z := 5.
Definition syncBatchSize : nat := 20.
Definition defaultConflictResolution : ConflictResolution := client_wins.
End OFFLINE_CONFIG.

(** ** The manager object *)

(** What the manager does to the outside world, in the order it does it. *)
Inductive event :=
  | EvPost (endpoint : option string) (body : JsRecord)
  | EvPersist (snapshot : list OfflineQueueItem) (written : bool)
  | EvNotify (snapshot : list OfflineQueueItem)
  | EvServerUpdate (ty : OfflineActionType) (data : JsRecord).

Abbreviation loc := nat.

Record OfflineQueueManager := mkManager {
  heap : list OfflineQueueItem;      (* the item objects, by reference *)
  queue : list loc;                  (* this.queue *)
  isProcessing : bool;
  isSyncing : bool;
  storage : option (list OfflineQueueItem);  (* AsyncStorage[OFFLINE_QUEUE] *)
  trace : list event
}.

Definition set_heap (v : list OfflineQueueItem) (m : OfflineQueueManager) :=
  mkManager v (queue m) (isProcessing m) (isSyncing m) (storage m) (trace m).
Definition set_queue (v : list loc) (m : OfflineQueueManager) :=
  mkManager (heap m) v (isProcessing m) (isSyncing m) (storage m) (trace m).
Definition set_isProcessing (v : bool) (m : OfflineQueueManager) :=
  mkManager (heap m) (queue m) v (isSyncing m) (storage m) (trace m).
Definition set_isSyncing (v : bool) (m : OfflineQueueManager) :=
  mkManager (heap m) (queue m) (isProcessing m) v (storage m) (trace m).
Definition set_storage (v : option (list OfflineQueueItem)) (m : OfflineQueueManager) :=
  mkManager (heap m) (queue m) (isProcessing m) (isSyncing m) v (trace m).
Definition emit (e : event) (m : OfflineQueueManager) :=
  mkManager (heap m) (queue m) (isProcessing m) (isSyncing m) (storage m)
            (trace m ++ [e]).

(** A freshly constructed manager. *)
Definition new_manager : OfflineQueueManager :=
  mkManager [] [] false false None [].

(** Dereference: the object a reference points at. *)
Definition deref (m : OfflineQueueManager) (l : loc) : OfflineQueueItem :=
  heap m !!! l.

(** [obj.f = v] on the object behind [l]. *)
Definition update (l : loc) (f : OfflineQueueItem → OfflineQueueItem)
    (m : OfflineQueueManager) : OfflineQueueManager :=
  set_heap (alter f l (heap m)) m.

(** The array as the values it holds (what [JSON.stringify] and the
    listeners see). *)
Definition snapshot (m : OfflineQueueManager) : list OfflineQueueItem :=
  deref m <$> queue m.

(** ** Inputs from the environment *)

(** What a rejected promise carries: an [Error] object with its message, or
    some other thrown value. *)
Inductive thrown := ErrorObject (message : string) | NotAnError.

(** How [apiClient.post] settles. *)
Inductive post_outcome :=
  | Resolved (response : ApiResponse.t)
  | Rejected (e : thrown).

(** What one call of [processItem] reads from outside: [Date.now()] for
    [lastAttempt], the settlement of its [post], [Date.now()] for
    [_mergedAt]. *)
Record attempt := mkAttempt {
  startedAt : Z;
  outcome : post_outcome;
  mergedAt : Z
}.

Module EnqueueOptions.
Record t := mk {
  priority : option Z;
  conflictResolution : option ConflictResolution;
  maxRetries : option Z
}.
End EnqueueOptions.

(** [options?.f ?? d] *)
Definition option_or {A} (options : option EnqueueOptions.t)
    (f : EnqueueOptions.t → option A) (d : A) : A :=
  default d (options ≫= f).

(** ** OfflineQueueManager: ordering *)

Definition priorities : gmap string Z :=
  list_to_map
    [ ("attendance_check_in", 100); ("attendance_check_out", 100);
      ("task_update", 80); ("report_submit", 60);
      ("location_update", 40); ("photo_upload", 20) ].

(** The table is an object literal, so besides its own six keys it
    answers to the names every object inherits; what it gives for those is
    not a number. *)
Definition Object_prototype_names : list string :=
  [ "constructor"; "hasOwnProperty"; "isPrototypeOf"; "propertyIsEnumerable";
    "toLocaleString"; "toString"; "valueOf"; "__proto__";
    "__defineGetter__"; "__defineSetter__"; "__lookupGetter__"; "__lookupSetter__" ].

(** [priorities[type] || 50]: the fallback is taken when the lookup is
    undefined or 0.  The function stands for the code on every name other
    than the inherited ones. *)
Definition getDefaultPriority (ty : OfflineActionType) : Z :=
  match priorities !! ty with
  | Some p => if p =? 0 then 50 else p
  | None => 50
  end.

(** The comparator handed to [Array.prototype.sort]. *)
Definition compareFn (a b : OfflineQueueItem) : Z :=
  if decide (priority a ≠ priority b) then priority b - priority a
  else timestamp a - timestamp b.

(** [a] may stand before [b] in a sorted array. *)
Definition before (a b : OfflineQueueItem) : Prop := compareFn a b ≤ 0.

Global Instance before_dec a b : Decision (before a b).
Proof. unfold before. apply _. Defined.

Definition before_ref (h : list OfflineQueueItem) (x y : loc) : Prop :=
  before (h !!! x) (h !!! y).

Global Instance before_ref_dec h x y : Decision (before_ref h x y).
Proof. unfold before_ref. apply _. Defined.

(** [Array.prototype.sort] is stable: elements the comparator does not
    separate keep their order.  With a comparator that is a total preorder
    there is one such result, the one a stable insertion sort gives: each
    element goes behind every element that may stand before it. *)
Section stable_sort.
Context {A : Type} (R : relation A) `{!∀ x y, Decision (R x y)}.

Fixpoint sort_insert (x : A) (sorted : list A) : list A :=
  match sorted with
  | [] => [x]
  | y :: rest =>
      if decide (R y x) then y :: sort_insert x rest else x :: y :: rest
  end.

Definition stable_sort (l : list A) : list A :=
  foldl (λ sorted x, sort_insert x sorted) [] l.
End stable_sort.

Definition sortQueue (m : OfflineQueueManager) : OfflineQueueManager :=
  set_queue (stable_sort (before_ref (heap m)) (queue m)) m.

(** ** OfflineQueueManager: persistence and notification *)

(** [written] tells whether [AsyncStorage.setItem] succeeded; a failure is
    caught and logged. *)
Definition persistQueue (written : bool) (m : OfflineQueueManager) : OfflineQueueManager :=
  let json := snapshot m in
  emit (EvPersist json written)
       (if written then set_storage (Some json) m else m).

Definition notifyListeners (m : OfflineQueueManager) : OfflineQueueManager :=
  emit (EvNotify (snapshot m)) m.

Definition emitServerUpdate (ty : OfflineActionType) (data : JsRecord)
    (m : OfflineQueueManager) : OfflineQueueManager :=
  emit (EvServerUpdate ty data) m.

(** ** OfflineQueueManager.enqueue *)

(** [uuid] is the value of [uuidv4()], [now] that of [Date.now()].  The
    result is the state when [notifyListeners] has run, with the returned
    id; the drain that [enqueue] then starts without awaiting it is
    [processQueue] below. *)
Definition enqueue (uuid : string) (now : Z) (written : bool)
    (ty : OfflineActionType) (payload : JsRecord)
    (options : option EnqueueOptions.t) (m : OfflineQueueManager)
    : string * OfflineQueueManager :=
  let item :=
    mkItem uuid ty payload now 0
      (option_or options EnqueueOptions.maxRetries OFFLINE_CONFIG.defaultMaxRetries)
      (option_or options EnqueueOptions.priority (getDefaultPriority ty))
      (option_or options EnqueueOptions.conflictResolution
                 OFFLINE_CONFIG.defaultConflictResolution)
      pending None None None 1 in
  let l := length (heap m) in
  let m := set_heap (heap m ++ [item]) m in
  let m := set_queue (queue m ++ [l]) m in
  let m := sortQueue m in
  let m := persistQueue written m in
  let m := notifyListeners m in
  (uuid, m).

(** The reference of the object [enqueue] creates. *)
Definition enqueued_ref (m : OfflineQueueManager) : loc := length (heap m).

(** ** OfflineQueueManager.executeAction *)

Definition endpoints : gmap string string :=
  list_to_map
    [ ("attendance_check_in", "/attendance/check-in");
      ("attendance_check_out", "/attendance/check-out");
      ("task_update", "/tasks/update");
      ("report_submit", "/reports/submit");
      ("location_update", "/location/update");
      ("photo_upload", "/uploads/photo") ].

Module ActionResult.
Record t := mk {
  success : bool;
  conflict : option bool;
  serverData : option JsRecord;
  error : option string
}.
End ActionResult.

(** [s.includes(needle)] *)
Fixpoint includes (needle s : string) : bool :=
  String.prefix needle s ||
  match s with
  | EmptyString => false
  | String _ s' => includes needle s'
  end.

(** The body sent to the endpoint. *)
Definition request_body (item : OfflineQueueItem) : JsRecord :=
  <["_timestamp" := JNum (timestamp item)]>
    (<["_localVersion" := JNum (localVersion item)]>
       (<["_offlineId" := JStr (id item)]> (payload item))).

(** [executeAction] up to the point where it waits for [post]. *)
Definition executeAction_send (item : loc) (m : OfflineQueueManager) : OfflineQueueManager :=
  emit (EvPost (endpoints !! type (deref m item)) (request_body (deref m item))) m.

(** [executeAction] from the settlement of [post] on. *)
Definition executeAction_settle (o : post_outcome) : ActionResult.t :=
  match o with
  | Resolved response =>
      let data := ApiResponse.data response in
      if default false (data ≫= ConflictData.conflict)
      then ActionResult.mk false (Some true) (data ≫= ConflictData.serverData) None
      else ActionResult.mk true None None None
  | Rejected (ErrorObject message) =>
      if includes "409" message
      then ActionResult.mk false (Some true) None None
      else ActionResult.mk false None None (Some message)
  | Rejected NotAnError =>
      ActionResult.mk false None None (Some "Network error")
  end.

(** ** OfflineQueueManager: conflict handling *)

(** [{ ...server, ...local, _merged: true, _mergedAt: Date.now() }] *)
Definition mergeChanges (now : Z) (local server : JsRecord) : JsRecord :=
  <["_mergedAt" := JNum now]> (<["_merged" := JBool true]> (local ∪ server)).

(** [this.queue.findIndex(q => q.id === wanted)], with the element found. *)
Definition findIndex (wanted : string) (m : OfflineQueueManager) : option (nat * loc) :=
  list_find (λ q, id (deref m q) = wanted) (queue m).

(** [this.queue.filter(q => q.id !== unwanted)] *)
Definition without (unwanted : string) (m : OfflineQueueManager) : list loc :=
  filter (λ q, id (deref m q) ≠ unwanted) (queue m).

Definition handleConflict (now : Z) (item : loc) (serverData : option JsRecord)
    (m : OfflineQueueManager) : OfflineQueueManager :=
  match findIndex (id (deref m item)) m with
  | None => m
  | Some (_, q) =>
      match conflictResolution (deref m item) with
      | client_wins =>
          let m := update item (λ o, set_localVersion (localVersion o + 1) o) m in
          update q (set_status pending) m
      | server_wins =>
          let ty := type (deref m item) in
          let m := set_queue (without (id (deref m item)) m) m in
          match serverData with
          | Some data => emitServerUpdate ty data m
          | None => m
          end
      | merge =>
          let mergedPayload :=
            mergeChanges now (payload (deref m item)) (default ∅ serverData) in
          let m := update q (set_payload mergedPayload) m in
          let m := update q (λ o, set_localVersion (localVersion o + 1) o) m in
          update q (set_status pending) m
      | manual =>
          let m := update q (set_status failed) m in
          let m := update q (set_errorMessage
                               (Some "Conflict requires manual resolution")) m in
          update q (set_serverVersion (serverData ≫= (.!! "_version"))) m
      end
  end.

(** ** OfflineQueueManager.processItem *)

(** From entry to the point where [executeAction] waits for the answer.
    [None]: the id is not in the queue and [processItem] returns.
    Otherwise the index found, which the rest of [processItem] keeps
    using. *)
Definition processItem_begin (now : Z) (item : loc) (m : OfflineQueueManager)
    : option (nat * OfflineQueueManager) :=
  match findIndex (id (deref m item)) m with
  | None => None
  | Some (itemIndex, q) =>
      let m := update q (set_status syncing) m in
      let m := update q (set_lastAttempt (Some now)) m in
      Some (itemIndex, executeAction_send item m)
  end.

(** The [catch] block.  [None]: [this.queue[itemIndex]] is undefined, the
    first statement throws a TypeError, which leaves [processItem]. *)
Definition processItem_catch (message : string) (item : loc) (itemIndex : nat)
    (m : OfflineQueueManager) : option OfflineQueueManager :=
  match queue m !! itemIndex with
  | None => None
  | Some q =>
      let m := update q (λ o, set_retryCount (retryCount o + 1) o) m in
      let m := update q (set_errorMessage (Some message)) m in
      if bool_decide (maxRetries (deref m item) ≤ retryCount (deref m q))
      then Some (update q (set_status failed) m)
      else Some (update q (set_status pending) m)
  end.

(** From the answer of [executeAction] to the end of [processItem].
    [None]: a TypeError leaves [processItem]; nothing was changed. *)
Definition processItem_finish (o : post_outcome) (now : Z) (item : loc)
    (itemIndex : nat) (m : OfflineQueueManager) : option OfflineQueueManager :=
  let result := executeAction_settle o in
  if ActionResult.success result then
    match queue m !! itemIndex with
    | Some q =>
        let m := update q (set_status completed) m in
        Some (set_queue (without (id (deref m item)) m) m)
    | None =>
        (* the assignment throws inside [try]; so does the [catch] block *)
        None
    end
  else if default false (ActionResult.conflict result) then
    Some (handleConflict now item (ActionResult.serverData result) m)
  else
    processItem_catch (default "" (ActionResult.error result)) item itemIndex m.

(** [processItem] run without interruption.  [None]: it threw. *)
Definition processItem (a : attempt) (item : loc) (m : OfflineQueueManager)
    : option OfflineQueueManager :=
  match processItem_begin (startedAt a) item m with
  | None => Some m
  | Some (itemIndex, m) =>
      processItem_finish (outcome a) (mergedAt a) item itemIndex m
  end.

(** ** OfflineQueueManager.processQueue *)

Definition selectable (m : OfflineQueueManager) (q : loc) : Prop :=
  status (deref m q) = pending ∨ status (deref m q) = failed.

Global Instance selectable_dec m q : Decision (selectable m q).
Proof. unfold selectable. apply _. Defined.

Definition select_batch (m : OfflineQueueManager) : list loc :=
  let pendingItems := filter (selectable m) (queue m) in
  take OFFLINE_CONFIG.syncBatchSize pendingItems.

(** [for (const item of batch) await this.processItem(item)]; the [n]-th
    call that reaches the network reads [inputs n].  A throw ends the
    loop. *)
Fixpoint process_batch (inputs : nat → attempt) (n : nat) (batch : list loc)
    (m : OfflineQueueManager) : OfflineQueueManager :=
  match batch with
  | [] => m
  | item :: rest =>
      match processItem_begin (startedAt (inputs n)) item m with
      | None => process_batch inputs n rest m
      | Some (itemIndex, m') =>
          match processItem_finish (outcome (inputs n)) (mergedAt (inputs n))
                                   item itemIndex m' with
          | Some m'' => process_batch inputs (S n) rest m''
          | None => m'
          end
      end
  end.

(** The [finally] block. *)
Definition processQueue_finally (written : bool) (m : OfflineQueueManager)
    : OfflineQueueManager :=
  let m := set_isProcessing false m in
  let m := set_isSyncing false m in
  let m := persistQueue written m in
  notifyListeners m.

(** One drain run without interruption.  [connected] is
    [netInfo.isConnected]. *)
Definition processQueue (connected : bool) (inputs : nat → attempt)
    (written : bool) (m : OfflineQueueManager) : OfflineQueueManager :=
  if isProcessing m || bool_decide (length (queue m) = 0%nat) then m
  else if negb connected then m
  else
    let m := set_isProcessing true m in
    let m := set_isSyncing true m in
    let batch := select_batch m in
    let m := process_batch inputs 0 batch m in
    processQueue_finally written m.

(** ** The remaining public operations *)

Definition removeItem (written : bool) (i : string) (m : OfflineQueueManager)
    : OfflineQueueManager :=
  let m := set_queue (without i m) m in
  let m := persistQueue written m in
  notifyListeners m.

(** Up to [persistQueue]; the drain started next is [processQueue]. *)
Definition retryItem (written : bool) (i : string) (m : OfflineQueueManager)
    : OfflineQueueManager :=
  match findIndex i m with
  | None => m
  | Some (_, q) =>
      let m := update q (set_status pending) m in
      let m := update q (set_retryCount 0) m in
      persistQueue written m
  end.

(** The body of the [forEach] callback. *)
Definition retry_if_failed (m : OfflineQueueManager) (q : loc) : OfflineQueueManager :=
  if decide (status (deref m q) = failed)
  then update q (set_retryCount 0) (update q (set_status pending) m)
  else m.

Definition retryAllFailed (written : bool) (m : OfflineQueueManager)
    : OfflineQueueManager :=
  let m := foldl retry_if_failed m (queue m) in
  persistQueue written m.

(** [maxAgeMs] defaults to one day. *)
Definition clearOldItems (now : Z) (written : bool) (maxAgeMs : option Z)
    (m : OfflineQueueManager) : OfflineQueueManager :=
  let maxAgeMs := default (24 * 60 * 60 * 1000) maxAgeMs in
  let cutoff := now - maxAgeMs in
  let m :=
    set_queue
      (filter (λ q, status (deref m q) ≠ completed ∨ cutoff < timestamp (deref m q))
              (queue m)) m in
  persistQueue written m.

Definition getQueue (m : OfflineQueueManager) : list OfflineQueueItem := snapshot m.

Module Stats.
Record t := mk { total : nat; pending : nat; syncing : nat; failed : nat }.
End Stats.

Definition count_status (s : Status) (m : OfflineQueueManager) : nat :=
  length (filter (λ q, status (deref m q) = s) (queue m)).

Definition getStats (m : OfflineQueueManager) : Stats.t :=
  Stats.mk (length (queue m)) (count_status pending m)
           (count_status syncing m) (count_status failed m).

(** [JSON.parse(stored)] builds new objects; a missing entry leaves the
    queue as it is. *)
Definition initialize (m : OfflineQueueManager) : OfflineQueueManager :=
  match storage m with
  | Some stored =>
      let l := length (heap m) in
      let m := set_heap (heap m ++ stored) m in
      set_queue (seq l (length stored)) m
  | None => m
  end.

(** ** processQueue as an [async] function

    An [async] function runs until it reaches an [await] on something
    that is not settled yet, and then gives way to whatever else is due;
    nothing else runs in between.  A call of [processQueue] waits at
    three places: [NetInfo.fetch()], the [apiClient.post] inside
    [executeAction], and the [AsyncStorage.setItem] inside
    [persistQueue]. *)

Inductive drain :=
  | NotCalled
  | AwaitNetInfo
  | AwaitPost (item : loc) (itemIndex : nat) (rest : list loc)
  | AwaitSetItem (json : list OfflineQueueItem)
  | Returned.

(** What the environment hands to a call when it lets it go on. *)
Record wake := mkWake {
  connected : bool;        (* netInfo.isConnected *)
  answer : post_outcome;   (* the settlement of the pending post *)
  now : Z;                 (* Date.now() while the call runs *)
  written : bool           (* whether setItem succeeded *)
}.

(** The [finally] block up to its [await]: [JSON.stringify] has run. *)
Definition enter_finally (m : OfflineQueueManager) : drain * OfflineQueueManager :=
  let m := set_isProcessing false m in
  let m := set_isSyncing false m in
  (AwaitSetItem (snapshot m), m).

(** The [finally] block from its [await] on. *)
Definition leave_finally (json : list OfflineQueueItem) (written : bool)
    (m : OfflineQueueManager) : OfflineQueueManager :=
  let m := emit (EvPersist json written)
                (if written then set_storage (Some json) m else m) in
  notifyListeners m.

(** The loop from the head of [batch] to the next [post]. *)
Fixpoint next_item (now : Z) (batch : list loc) (m : OfflineQueueManager)
    : drain * OfflineQueueManager :=
  match batch with
  | [] => enter_finally m
  | item :: rest =>
      match processItem_begin now item m with
      | None => next_item now rest m
      | Some (itemIndex, m) => (AwaitPost item itemIndex rest, m)
      end
  end.

(** One uninterrupted stretch of a call. *)
Definition drain_step (w : wake) (d : drain) (m : OfflineQueueManager)
    : drain * OfflineQueueManager :=
  match d with
  | NotCalled =>
      if isProcessing m || bool_decide (length (queue m) = 0%nat)
      then (Returned, m)
      else (AwaitNetInfo, m)
  | AwaitNetInfo =>
      if negb (connected w) then (Returned, m)
      else
        let m := set_isProcessing true m in
        let m := set_isSyncing true m in
        next_item (now w) (select_batch m) m
  | AwaitPost item itemIndex rest =>
      match processItem_finish (answer w) (now w) item itemIndex m with
      | Some m => next_item (now w) rest m
      | None => enter_finally m
      end
  | AwaitSetItem json => (Returned, leave_finally json (written w) m)
  | Returned => (Returned, m)
  end.

(** [removeItem] waits once, for the [setItem] of its [persistQueue]:
    this is the call up to there, with the JSON text handed to storage;
    from there on it goes like the [finally] block, [leave_finally]. *)
Definition removeItem_begin (i : string) (m : OfflineQueueManager)
    : list OfflineQueueItem * OfflineQueueManager :=
  let m := set_queue (without i m) m in
  (snapshot m, m).

(** Several calls in flight.  A schedule names, stretch by stretch, the
    call that runs and what it is handed. *)
Record calls := mkCalls {
  drains : list drain;
  manager : OfflineQueueManager;
  posts : list (nat * event)     (* which call made which network call *)
}.

Definition is_post (e : event) : Prop :=
  match e with EvPost _ _ => True | _ => False end.

Global Instance is_post_dec e : Decision (is_post e).
Proof. destruct e; apply _. Defined.

Definition run_one (c : calls) (step : nat * wake) : calls :=
  let '(k, w) := step in
  match drains c !! k with
  | None => c
  | Some d =>
      let '(d', m') := drain_step w d (manager c) in
      let emitted := drop (length (trace (manager c))) (trace m') in
      mkCalls (<[k := d']> (drains c)) m'
              (posts c ++ ((k,.) <$> filter is_post emitted))
  end.

Definition run (schedule : list (nat * wake)) (c : calls) : calls :=
  foldl run_one c schedule.

(** One call on its own: it is let go on as soon as it waits, with
    [ws k] at its [k]-th stretch, for at most [fuel] stretches. *)
Fixpoint drive (ws : nat → wake) (fuel : nat) (k : nat) (d : drain)
    (m : OfflineQueueManager) : drain * OfflineQueueManager :=
  match fuel with
  | O => (d, m)
  | S fuel =>
      match d with
      | Returned => (d, m)
      | _ => let '(d', m') := drain_step (ws k) d m in drive ws fuel (S k) d' m'
      end
  end.

(** What the [n]-th network call of such a call reads. *)
Definition inputs_of (ws : nat → wake) (n : nat) : attempt :=
  mkAttempt (now (ws (1 + n)%nat)) (answer (ws (2 + n)%nat)) (now (ws (2 + n)%nat)).

(** [n] calls not yet made, on manager [m]. *)
Definition calls_on (n : nat) (m : OfflineQueueManager) : calls :=
  mkCalls (replicate n NotCalled) m [].

(** The network calls of call [k]. *)
Definition posts_of (k : nat) (c : calls) : list event :=
  (filter (λ p, p.1 = k) (posts c)).*2.

(** ** Properties of states *)

(** Every reference in the queue points at an object. *)
Definition valid_refs (m : OfflineQueueManager) : Prop :=
  Forall (λ q, (q < length (heap m))%nat) (queue m).

(** No two entries of the queue carry the same id ([uuidv4] ids). *)
Definition unique_ids (m : OfflineQueueManager) : Prop :=
  NoDup (id <$> snapshot m).

(** Sorted by (priority descending, timestamp ascending). *)
Definition queue_sorted (m : OfflineQueueManager) : Prop :=
  StronglySorted (before_ref (heap m)) (queue m).

Definition items_sorted (l : list OfflineQueueItem) : Prop :=
  StronglySorted before l.

(** The ids sent to the server, in order. *)
Definition posted_ids (t : list event) : list jsval :=
  omap (λ e, match e with EvPost _ body => body !! "_offlineId" | _ => None end) t.

(** The events a step added. *)
Definition emitted (m m' : OfflineQueueManager) : list event :=
  drop (length (trace m)) (trace m').

(** Every notification comes right after a [persistQueue] of the very
    array it reports.  [last] is the array handed to storage by the event
    just before, if that event was a [persistQueue]. *)
Fixpoint notified_after (last : option (list OfflineQueueItem)) (t : list event) : Prop :=
  match t with
  | [] => True
  | EvPersist json _ :: t' => notified_after (Some json) t'
  | EvNotify seen :: t' => last = Some seen ∧ notified_after None t'
  | _ :: t' => notified_after None t'
  end.

Definition persisted_before_notified (t : list event) : Prop :=
  notified_after None t.

(** For the events [evs] that led to [m']: what a notification reports is
    the queue as it is, it was handed to storage in the same operation, and
    if storage took it, storage holds it. *)
Definition notified_is_stored (m' : OfflineQueueManager) (evs : list event) : Prop :=
  ∀ seen, EvNotify seen ∈ evs →
    seen = snapshot m' ∧
    ∃ w, EvPersist seen w ∈ evs ∧ (w = true → storage m' = Some seen).

(** What was last written to storage is sorted. *)
Definition storage_sorted (m : OfflineQueueManager) : Prop :=
  ∀ stored, storage m = Some stored → items_sorted stored.

Definition ordered (m : OfflineQueueManager) : Prop :=
  queue_sorted m ∧ storage_sorted m.

(** The operations a client can ask for, each run to its end. *)
Inductive operation :=
  | Enqueue (uuid : string) (now : Z) (written : bool) (ty : OfflineActionType)
            (p : JsRecord) (options : option EnqueueOptions.t)
  | ProcessQueue (connected : bool) (inputs : nat → attempt) (written : bool)
  | RemoveItem (written : bool) (i : string)
  | RetryItem (written : bool) (i : string)
  | RetryAllFailed (written : bool)
  | ClearOldItems (now : Z) (written : bool) (maxAgeMs : option Z)
  | Initialize.

Definition perform (op : operation) (m : OfflineQueueManager) : OfflineQueueManager :=
  match op with
  | Enqueue uuid now written ty p options =>
      (enqueue uuid now written ty p options m).2
  | ProcessQueue connected inputs written => processQueue connected inputs written m
  | RemoveItem written i => removeItem written i m
  | RetryItem written i => retryItem written i m
  | RetryAllFailed written => retryAllFailed written m
  | ClearOldItems now written maxAgeMs => clearOldItems now written maxAgeMs m
  | Initialize => initialize m
  end.

Definition perform_all (ops : list operation) (m : OfflineQueueManager)
    : OfflineQueueManager :=
  foldl (λ m op, perform op m) m ops.

(** The states a manager can be in between operations. *)
Inductive reachable : OfflineQueueManager → Prop :=
  | reachable_new : reachable new_manager
  | reachable_perform m op : reachable m → reachable (perform op m).

(** What was last written to storage has no id twice. *)
Definition storage_unique (m : OfflineQueueManager) : Prop :=
  ∀ stored, storage m = Some stored → NoDup (id <$> stored).

Definition well_formed (m : OfflineQueueManager) : Prop :=
  valid_refs m ∧ unique_ids m ∧ storage_unique m.

(** [uuidv4()] gives an id that is not in use. *)
Definition admissible (op : operation) (m : OfflineQueueManager) : Prop :=
  match op with
  | Enqueue uuid _ _ _ _ _ => uuid ∉ (id <$> snapshot m)
  | _ => True
  end.

(** An event other than a write to storage or a notification. *)
Definition quiet (e : event) : Prop :=
  match e with
  | EvPersist _ _ | EvNotify _ => False
  | _ => True
  end.

(** ** States used as examples *)

Module Examples.
(** A check-in that has used up its budget of two attempts. *)
Definition exhausted : OfflineQueueItem :=
  mkItem "a" "attendance_check_in" ∅ 1 2 2 100 client_wins failed
         (Some "timeout") (Some 10) None 1.

(** A report waiting for its first attempt. *)
Definition fresh_report : OfflineQueueItem :=
  mkItem "b" "report_submit" ∅ 2 0 5 60 client_wins pending None None None 1.


(** What the server holds for it. *)
Definition server_report : JsRecord :=
  {[ "title" := JStr "Visit (edited)"; "_version" := JNum 7 ]}.

(** A report is queued, then a check-in. *)
Definition report_then_check_in : list operation :=
  [ Enqueue "rep" 1 true "report_submit" ∅ None;
    Enqueue "in" 2 true "attendance_check_in" ∅ None ].

(** The server acknowledges every request. *)
Definition acknowledged : nat → attempt :=
  λ _, mkAttempt 10 (Resolved (ApiResponse.mk true None None)) 11.

(** Every request times out. *)
Definition timing_out : nat → attempt :=
  λ _, mkAttempt 10 (Rejected (ErrorObject "timeout")) 11.

(** A check-in queued with a budget of two attempts (scenario C). *)
Definition check_in_budget_two : list operation :=
  [ Enqueue "a" 1 true "attendance_check_in" ∅
            (Some (EnqueueOptions.mk None None (Some 2))) ].

Definition drain_timing_out : operation := ProcessQueue true timing_out true.

(** What the mock server answers to a check-out without a check-in:
    [{ success: false, error: { code: 'NOT_FOUND', ... } }]. *)
Definition no_check_in_record : ApiResponse.t :=
  ApiResponse.mk false None
    (Some (ApiError.mk "NOT_FOUND" "No check-in record found")).

Definition check_out_queued : list operation :=
  [ Enqueue "out" 1 true "attendance_check_out" ∅ None ].

Definition refused : nat → attempt :=
  λ _, mkAttempt 10 (Resolved no_check_in_record) 11.

(** Two calls of [processQueue]; both are made before [NetInfo.fetch]
    answers the first, then they take turns. *)
Definition go : wake :=
  mkWake true (Resolved (ApiResponse.mk true None None)) 10 true.

Definition both_called : list (nat * wake) := [ (0, go); (1, go) ]%nat.

Definition taking_turns : list (nat * wake) :=
  [ (0, go); (1, go);      (* both calls pass the guard and wait for NetInfo *)
    (0, go);               (* call 0 posts the check-in *)
    (1, go);               (* call 1 posts the report *)
    (0, go);               (* check-in acknowledged; call 0 posts the report *)
    (1, go);               (* report acknowledged to call 1 *)
    (0, go);               (* report acknowledged to call 0 *)
    (0, go); (1, go) ]%nat. (* both writes to storage settle *)

(** A drain is waiting for the answer to the check-in when the report is
    removed; the answer arrives while [removeItem] waits for storage. *)
Definition removal_during_drain : OfflineQueueManager :=
  let m := perform_all report_then_check_in new_manager in
  let '(d, m) := drain_step go NotCalled m in
  let '(d, m) := drain_step go d m in            (* the check-in is posted *)
  let '(json, m) := removeItem_begin "rep" m in  (* removeItem waits *)
  let '(d, m) := drain_step go d m in            (* the drain goes on *)
  leave_finally json true m.                     (* removeItem goes on *)

(** A manager holding [items], in this order. *)
Definition holding (items : list OfflineQueueItem) : OfflineQueueManager :=
  mkManager items (seq 0 (length items)) false false None [].
End Examples.

(** ** One attempt, seen from the object

    The same steps as [processItem], written for the one object they
    work on: what the object is afterwards, and whether it stays in the
    queue. *)

(** The object when its request goes out. *)
Definition started (a : attempt) (o : OfflineQueueItem) : OfflineQueueItem :=
  set_lastAttempt (Some (startedAt a)) (set_status syncing o).





(** The answers [executeAction] turns into a plain failure: a rejection
    whose message does not hold "409". *)
Definition retryable (o : post_outcome) : Prop :=
  match o with
  | Resolved _ => False
  | Rejected (ErrorObject message) => includes "409" message = false
  | Rejected NotAnError => True
  end.

Global Instance retryable_dec o : Decision (retryable o).
Proof. destruct o as [|[]]; apply _. Defined.


(** ** More states used as examples *)

Module Cases.




End Cases.

(** ** Between operations *)

(** The states reached when every id [enqueue] draws from [uuidv4] is one
    the queue does not hold. *)
Inductive reachable_fresh : OfflineQueueManager → Prop :=
  | fresh_new : reachable_fresh new_manager
  | fresh_perform m op :
      reachable_fresh m → admissible op m → reachable_fresh (perform op m).

(** No queued item is left [syncing] or [completed]. *)
Definition settled (m : OfflineQueueManager) : Prop :=
  Forall (selectable m) (queue m).


(** ** src/store/app-store: the part fed by the queue *)

Module AppState.
Record t := mk {
  isOnline : bool;
  networkType : option string;
  isSyncing : bool;
  lastSyncTime : option string;
  pendingSync : nat;
  offlineQueue : list OfflineQueueItem;
  isWsConnected : bool;
  isAppReady : bool;
  isAppActive : bool
}.
End AppState.


Module Cases2.
(** A check-in fails once, is retried by hand and fails again, while a
    report waits behind it. *)
Definition busy_day : OfflineQueueManager :=
  perform (ProcessQueue true Examples.timing_out true)
    (perform (RetryItem true "in")
       (perform (ProcessQueue true Examples.timing_out true)
          (perform (Enqueue "rep" 2 true "report_submit" ∅ None)
             (perform (Enqueue "in" 1 true "attendance_check_in" ∅
                               (Some (EnqueueOptions.mk None None (Some 1))))
                new_manager)))).

End Cases2.

(** * Properties *)

(** ** The stable sort *)

Section stable_sort_correct.
Context {A : Type} (R : relation A) `{!∀ x y, Decision (R x y)}.

Lemma sort_insert_Permutation x l : sort_insert R x l ≡ₚ x :: l.
Proof.
  induction l as [|y l IH]; simpl; [done|].
  case_decide; [|done].
  rewrite IH. apply Permutation_swap.
Qed.

Lemma foldl_sort_insert_Permutation acc l :
  foldl (λ sorted x, sort_insert R x sorted) acc l ≡ₚ acc ++ l.
Proof.
  revert acc. induction l as [|x l IH]; intros acc; simpl.
  - by rewrite app_nil_r.
  - rewrite IH, sort_insert_Permutation.
    by rewrite (Permutation_middle acc l x).
Qed.

Lemma stable_sort_Permutation l : stable_sort R l ≡ₚ l.
Proof. apply (foldl_sort_insert_Permutation []). Qed.

Context `{!Total R, !Transitive R}.

Lemma StronglySorted_sort_insert x l :
  StronglySorted R l → StronglySorted R (sort_insert R x l).
Proof.
  induction 1 as [|y l Hl IH Hy]; simpl.
  - repeat constructor.
  - case_decide as Hyx.
    + constructor; [done|].
      rewrite sort_insert_Permutation. by constructor.
    + assert (R x y) as Hxy by (by destruct (total R x y)).
      constructor; [by constructor|].
      constructor; [done|].
      eapply Forall_impl; [exact Hy|]. intros z Hz. by transitivity y.
Qed.

Lemma StronglySorted_stable_sort l : StronglySorted R (stable_sort R l).
Proof.
  unfold stable_sort.
  assert (StronglySorted R []) as Hacc by constructor.
  revert Hacc. generalize (@nil A) as acc.
  induction l as [|x l IH]; intros acc Hacc; simpl; [done|].
  apply IH. by apply StronglySorted_sort_insert.
Qed.

Lemma StronglySorted_sublist l k :
  k `sublist_of` l → StronglySorted R l → StronglySorted R k.
Proof.
  induction 1 as [|x k l Hkl IH|x k l Hkl IH]; intros Hl.
  - constructor.
  - apply StronglySorted_cons in Hl as [Hx Hl].
    apply StronglySorted_cons. split; [|by apply IH].
    eapply Forall_forall. intros y Hy.
    eapply Forall_forall; [exact Hx|]. by eapply elem_of_sublist.
  - apply StronglySorted_cons in Hl as [_ Hl]. by apply IH.
Qed.
End stable_sort_correct.

(** ** The order on items *)

Global Instance before_total : Total before.
Proof.
  intros a b. unfold before, compareFn.
  repeat case_decide; lia.
Qed.

Global Instance before_trans : Transitive before.
Proof.
  intros a b c. unfold before, compareFn.
  repeat case_decide; lia.
Qed.

Global Instance before_ref_total h : Total (before_ref h).
Proof. intros x y. apply before_total. Qed.

Global Instance before_ref_trans h : Transitive (before_ref h).
Proof. intros x y z. apply before_trans. Qed.

(** [before] written out: higher priority first, then older first. *)
Lemma before_spec a b :
  before a b ↔
  priority b < priority a ∨ (priority a = priority b ∧ timestamp a ≤ timestamp b).
Proof. unfold before, compareFn. case_decide; lia. Qed.

(** ** The object store *)

Lemma deref_update_eq l f m :
  (l < length (heap m))%nat → deref (update l f m) l = f (deref m l).
Proof. intros Hl. unfold deref, update. simpl. by apply list_lookup_total_alter_eq. Qed.

Lemma deref_update_ne l l' f m :
  l ≠ l' → deref (update l f m) l' = deref m l'.
Proof. intros Hl. unfold deref, update. simpl. by apply list_lookup_total_alter_ne. Qed.

(** A field the assignment leaves alone reads the same afterwards, whatever
    the reference. *)
Lemma deref_update_field {B} (g : OfflineQueueItem → B) l l' f m :
  (∀ o, g (f o) = g o) → g (deref (update l f m) l') = g (deref m l').
Proof.
  intros Hg. unfold deref, update. simpl.
  rewrite list_lookup_total_alter. case_decide as H; [|done].
  destruct H as [-> _]. apply Hg.
Qed.




Lemma length_heap_update l f m : length (heap (update l f m)) = length (heap m).
Proof. unfold update. simpl. apply length_alter. Qed.

(** ** enqueue *)

Lemma enqueue_heap uuid now written ty p options m :
  ∃ item,
    heap (enqueue uuid now written ty p options m).2 = heap m ++ [item] ∧
    item = mkItem uuid ty p now 0
             (option_or options EnqueueOptions.maxRetries OFFLINE_CONFIG.defaultMaxRetries)
             (option_or options EnqueueOptions.priority (getDefaultPriority ty))
             (option_or options EnqueueOptions.conflictResolution
                        OFFLINE_CONFIG.defaultConflictResolution)
             pending None None None 1.
Proof. eexists. split; [|reflexivity]. unfold enqueue. simpl. by destruct written. Qed.

Lemma enqueue_queue uuid now written ty p options m :
  queue (enqueue uuid now written ty p options m).2 ≡ₚ queue m ++ [enqueued_ref m].
Proof.
  unfold enqueue. simpl. destruct written; simpl; apply stable_sort_Permutation.
Qed.

(** C8: the item [enqueue] creates starts as [pending], with
    [localVersion] 1 and [retryCount] 0; its priority is the caller's if
    one is given and otherwise the entry of the per-type table
    (check-in and check-out 100, task update 80, report submit 60, location
    update 40, photo upload 20); its conflict resolution is the caller's if
    one is given and otherwise the configured default, [client_wins].  The
    item is in the queue and [enqueue] returns its id. *)
Theorem enqueue_initial_item uuid now written ty p options m :
  let r := enqueue uuid now written ty p options m in
  let l := enqueued_ref m in
  r.1 = uuid ∧
  l ∈ queue r.2 ∧
  (∃ o, heap r.2 !! l = Some o ∧
     id o = uuid ∧ type o = ty ∧ payload o = p ∧ timestamp o = now ∧
     status o = pending ∧ localVersion o = 1 ∧ retryCount o = 0 ∧
     priority o =
       match options ≫= EnqueueOptions.priority with
       | Some v => v
       | None => getDefaultPriority ty
       end ∧
     conflictResolution o =
       match options ≫= EnqueueOptions.conflictResolution with
       | Some v => v
       | None => OFFLINE_CONFIG.defaultConflictResolution
       end) ∧
  getDefaultPriority "attendance_check_in" = 100 ∧
  getDefaultPriority "attendance_check_out" = 100 ∧
  getDefaultPriority "task_update" = 80 ∧
  getDefaultPriority "report_submit" = 60 ∧
  getDefaultPriority "location_update" = 40 ∧
  getDefaultPriority "photo_upload" = 20 ∧
  OFFLINE_CONFIG.defaultConflictResolution = client_wins.
Proof.
  intros r l. split; [done|]. split.
  { subst r l. rewrite enqueue_queue. set_solver. }
  split.
  { destruct (enqueue_heap uuid now written ty p options m) as (item & Hh & ->).
    eexists. split.
    { subst r l. rewrite Hh. unfold enqueued_ref. apply list_lookup_middle. done. }
    simpl. unfold option_or.
    repeat split; by destruct (options ≫= _). }
  repeat split; by vm_compute.
Qed.

Lemma getDefaultPriority_unknown ty :
  ty ∉ OfflineActionTypes → getDefaultPriority ty = 50.
Proof.
  intros Hty. unfold getDefaultPriority.
  assert (priorities !! ty = None) as ->; [|done].
  apply not_elem_of_list_to_map_1. exact Hty.
Qed.

(** C4, as the code has it: [enqueue] does not look at the action type at
    run time (the closed enumeration is a compile-time type only).  A type
    outside the enumeration is queued like any other: [enqueue] returns the
    id, the queue gains exactly the new item, which is [pending], carries
    the given type and, unless the caller gives a priority, the fallback
    priority 50. *)
Theorem enqueue_accepts_unknown_type uuid now written ty p options m :
  ty ∉ OfflineActionTypes → ty ∉ Object_prototype_names →
  let r := enqueue uuid now written ty p options m in
  let l := enqueued_ref m in
  r.1 = uuid ∧
  queue r.2 ≡ₚ queue m ++ [l] ∧
  ∃ o, heap r.2 !! l = Some o ∧ type o = ty ∧ status o = pending ∧
       priority o = default 50 (options ≫= EnqueueOptions.priority).
Proof.
  intros Hty _ r l. split; [done|]. split; [apply enqueue_queue|].
  destruct (enqueue_heap uuid now written ty p options m) as (item & Hh & ->).
  eexists. split.
  { subst r l. rewrite Hh. unfold enqueued_ref. by apply list_lookup_middle. }
  simpl. unfold option_or. by rewrite (getDefaultPriority_unknown ty Hty).
Qed.

(** C4 as stated fails: a type outside the enumeration is not rejected,
    the item is added to the queue. *)
Lemma enqueue_unknown_type_is_queued :
  let r := enqueue "id-1" 0 true "bogus" ∅ None new_manager in
  ("bogus" ∉ OfflineActionTypes) ∧
  r.1 = "id-1" ∧
  queue new_manager = [] ∧
  (type <$> snapshot r.2) = ["bogus"] ∧
  (priority <$> snapshot r.2) = [50].
Proof.
  split; [|by vm_compute].
  apply (bool_decide_unpack _). by vm_compute.
Qed.

Lemma enqueue_accepts_unknown_type_witness :
  ∃ o, heap (enqueue "id-1" 0 true "bogus" ∅ None new_manager).2 !! 0%nat = Some o ∧
       type o = "bogus" ∧ status o = pending ∧ priority o = 50.
Proof.
  assert ("bogus" ∉ OfflineActionTypes) as Hty
    by (apply (bool_decide_unpack _); by vm_compute).
  assert ("bogus" ∉ Object_prototype_names) as Hown
    by (apply (bool_decide_unpack _); by vm_compute).
  destruct (enqueue_accepts_unknown_type "id-1" 0 true "bogus" ∅ None new_manager
              Hty Hown) as (_ & _ & H).
  exact H.
Defined.

(** ** Looking items up by id *)

Lemma unique_ids_inj m q1 q2 :
  unique_ids m → q1 ∈ queue m → q2 ∈ queue m →
  id (deref m q1) = id (deref m q2) → q1 = q2.
Proof.
  unfold unique_ids, snapshot. rewrite <-list_fmap_compose.
  generalize (queue m) as l. intros l Hnd H1 H2 Heq.
  apply list_elem_of_lookup in H1 as [i Hi], H2 as [j Hj].
  assert (i = j) as ->; [|congruence].
  eapply NoDup_lookup; [exact Hnd| |].
  - rewrite list_lookup_fmap, Hi. reflexivity.
  - rewrite list_lookup_fmap, Hj. simpl. by rewrite Heq.
Qed.

Lemma unique_ids_NoDup m : unique_ids m → NoDup (queue m).
Proof.
  unfold unique_ids, snapshot. rewrite <-list_fmap_compose. apply NoDup_fmap_1.
Qed.

Lemma findIndex_unique m k q :
  unique_ids m → queue m !! k = Some q →
  findIndex (id (deref m q)) m = Some (k, q).
Proof.
  intros Hu Hk. unfold findIndex. apply list_find_Some.
  split_and!; [done..|].
  intros j y Hj Hlt Heq.
  assert (y = q) as ->.
  { eapply unique_ids_inj; eauto using list_elem_of_lookup_2. }
  assert (j = k); [|lia].
  apply (NoDup_lookup (queue m) j k q); [by apply unique_ids_NoDup|done..].
Qed.





(** ** retryItem and retryAllFailed *)

Lemma heap_persistQueue written m : heap (persistQueue written m) = heap m.
Proof. by destruct written. Qed.

Lemma queue_persistQueue written m : queue (persistQueue written m) = queue m.
Proof. by destruct written. Qed.





(** ** clearOldItems *)

(** C10: [clearOldItems] only drops entries that are [completed] and not
    newer than the cutoff [now - maxAgeMs]; an entry that is [pending],
    [syncing] or [failed] stays, whatever its age.  The objects themselves
    and the order of the entries that stay are untouched. *)
Theorem clearOldItems_keeps_unfinished now written maxAgeMs m q :
  q ∈ queue m →
  let m' := clearOldItems now written maxAgeMs m in
  let cutoff := now - default (24 * 60 * 60 * 1000) maxAgeMs in
  heap m' = heap m ∧
  queue m' `sublist_of` queue m ∧
  (status (deref m q) ∈ [pending; syncing; failed] → q ∈ queue m') ∧
  (q ∉ queue m' →
     status (deref m q) = completed ∧ timestamp (deref m q) ≤ cutoff) ∧
  (q ∈ queue m' ↔
     status (deref m q) ≠ completed ∨ cutoff < timestamp (deref m q)).
Proof.
  intros Hq m' cutoff.
  assert (queue m' =
          filter (λ q, status (deref m q) ≠ completed ∨ cutoff < timestamp (deref m q))
                 (queue m)) as Hqueue.
  { subst m'. unfold clearOldItems. by rewrite queue_persistQueue. }
  split_and!.
  - subst m'. unfold clearOldItems. by rewrite heap_persistQueue.
  - rewrite Hqueue. apply sublist_filter.
  - intros Hs. rewrite Hqueue. apply list_elem_of_filter. split; [|done].
    left. intros Hc. rewrite Hc in Hs.
    apply (bool_decide_pack _) in Hs. by vm_compute in Hs.
  - rewrite Hqueue. rewrite list_elem_of_filter. intros Hn.
    destruct (decide (status (deref m q) = completed)) as [Hc|Hc].
    + split; [done|].
      destruct (decide (cutoff < timestamp (deref m q))); [|lia].
      exfalso. apply Hn. by split; [right|].
    + exfalso. apply Hn. by split; [left|].
  - rewrite Hqueue. rewrite list_elem_of_filter. naive_solver.
Qed.

Lemma clearOldItems_keeps_unfinished_witness :
  1%nat ∈ queue (clearOldItems 1000000000 true None
                   (Examples.holding [Examples.exhausted; Examples.fresh_report])).
Proof.
  assert (1%nat ∈ queue (Examples.holding [Examples.exhausted; Examples.fresh_report]))
    as Hq by (apply (bool_decide_unpack _); by vm_compute).
  destruct (clearOldItems_keeps_unfinished 1000000000 true None _ 1%nat Hq)
    as (_ & _ & H & _).
  apply H. apply (bool_decide_unpack _). by vm_compute.
Defined.

(** ** handleConflict *)





(** ** What the queue operations leave alone *)

(** [m'] comes from [m] by writing to fields other than [id], [priority]
    and [timestamp], by allocating, and by dropping entries of the queue. *)
Record evolves (m m' : OfflineQueueManager) : Prop := mkEvolves {
  evolves_id : ∀ l, id (deref m' l) = id (deref m l);
  evolves_priority : ∀ l, priority (deref m' l) = priority (deref m l);
  evolves_timestamp : ∀ l, timestamp (deref m' l) = timestamp (deref m l);
  evolves_length : length (heap m') = length (heap m);
  evolves_queue : queue m' `sublist_of` queue m
}.

Lemma evolves_refl m : evolves m m.
Proof. by split. Qed.

Lemma evolves_trans m1 m2 m3 : evolves m1 m2 → evolves m2 m3 → evolves m1 m3.
Proof.
  intros [] []. split; intros; try congruence.
  by etrans.
Qed.

Lemma evolves_same_objects m m' :
  heap m' = heap m → queue m' = queue m → evolves m m'.
Proof. intros Hh Hq. split; try done; try (intros l; unfold deref); by rewrite ?Hh, ?Hq. Qed.

Lemma evolves_sublist m m' :
  heap m' = heap m → queue m' `sublist_of` queue m → evolves m m'.
Proof. intros Hh Hq. split; try done; try (intros l; unfold deref); by rewrite Hh. Qed.

Lemma evolves_update l f m :
  (∀ o, id (f o) = id o) → (∀ o, priority (f o) = priority o) →
  (∀ o, timestamp (f o) = timestamp o) →
  evolves m (update l f m).
Proof.
  intros H1 H2 H3. split; intros; try by apply deref_update_field.
  - apply length_heap_update.
  - done.
Qed.

Lemma evolves_emit e m : evolves m (emit e m).
Proof. by apply evolves_same_objects. Qed.

Lemma evolves_persistQueue written m : evolves m (persistQueue written m).
Proof.
  apply evolves_same_objects; [apply heap_persistQueue | apply queue_persistQueue].
Qed.

Lemma evolves_filter (P : loc → Prop) `{!∀ q, Decision (P q)} m :
  evolves m (set_queue (filter P (queue m)) m).
Proof. apply evolves_sublist; [done|]. apply sublist_filter. Qed.

Lemma before_ref_evolves m m' x y :
  evolves m m' → before_ref (heap m') x y ↔ before_ref (heap m) x y.
Proof.
  intros [_ Hp Ht _ _]. unfold before_ref. rewrite !before_spec.
  fold (deref m' x) (deref m' y) (deref m x) (deref m y).
  by rewrite !Hp, !Ht.
Qed.

Lemma StronglySorted_evolves m m' l :
  evolves m m' →
  StronglySorted (before_ref (heap m)) l → StronglySorted (before_ref (heap m')) l.
Proof.
  intros He. induction 1 as [|x l Hl IH Hx]; constructor; [done|].
  eapply Forall_impl; [exact Hx|]. intros y Hy. by apply (before_ref_evolves m m').
Qed.

Lemma queue_sorted_evolves m m' : evolves m m' → queue_sorted m → queue_sorted m'.
Proof.
  intros He Hs. unfold queue_sorted.
  apply (StronglySorted_sublist _ (queue m)); [apply He|].
  by apply (StronglySorted_evolves m m').
Qed.

Lemma unique_ids_evolves m m' : evolves m m' → unique_ids m → unique_ids m'.
Proof.
  intros He. unfold unique_ids, snapshot. rewrite <-!list_fmap_compose.
  intros Hnd.
  rewrite (list_fmap_ext (id ∘ deref m') (id ∘ deref m) (queue m'))
    by (intros ???; apply He).
  eapply sublist_NoDup; [exact Hnd|]. apply fmap_sublist, He.
Qed.

Lemma valid_refs_evolves m m' : evolves m m' → valid_refs m → valid_refs m'.
Proof.
  intros He Hv. unfold valid_refs. rewrite (evolves_length _ _ He).
  unfold valid_refs in Hv. rewrite Forall_forall in *. intros q Hq.
  apply Hv. eapply elem_of_sublist; [exact Hq|apply He].
Qed.

(** ** Inside a drain *)

(** What a stretch of [processItem] working on the id [x] does: it changes
    objects as [evolves] allows, emits [evs], drops from the queue at most
    entries with id [x], and leaves the flags and the storage alone. *)
Record inner_step (x : string) (evs : list event)
    (m m' : OfflineQueueManager) : Prop := mkInner {
  inner_evolves : evolves m m';
  inner_trace : trace m' = trace m ++ evs;
  inner_keeps : ∀ q, q ∈ queue m → id (deref m q) ≠ x → q ∈ queue m';
  inner_storage : storage m' = storage m;
  inner_isProcessing : isProcessing m' = isProcessing m;
  inner_isSyncing : isSyncing m' = isSyncing m
}.

Lemma inner_refl x m : inner_step x [] m m.
Proof. split; first [done | apply evolves_refl | by rewrite app_nil_r]. Qed.

Lemma inner_update x evs m m1 l f :
  (∀ o, id (f o) = id o) → (∀ o, priority (f o) = priority o) →
  (∀ o, timestamp (f o) = timestamp o) →
  inner_step x evs m m1 → inner_step x evs m (update l f m1).
Proof.
  intros H1 H2 H3 []. split; try done.
  eapply evolves_trans; [done|]. by apply evolves_update.
Qed.

Lemma inner_emit x evs m m1 e :
  inner_step x evs m m1 → inner_step x (evs ++ [e]) m (emit e m1).
Proof.
  intros [He Ht Hk Hs Hp Hy]. split; try done.
  - eapply evolves_trans; [done|]. apply evolves_emit.
  - simpl. by rewrite Ht, (assoc_L (++)).
Qed.

Lemma inner_without x evs m m1 y :
  y = x → inner_step x evs m m1 →
  inner_step x evs m (set_queue (without y m1) m1).
Proof.
  intros -> [He Ht Hk Hs Hp Hy]. split; try done.
  - eapply evolves_trans; [done|]. apply evolves_filter.
  - intros q Hq Hne. simpl. unfold without. apply list_elem_of_filter.
    split; [|by apply Hk]. by rewrite (evolves_id _ _ He).
Qed.

Lemma inner_trans x evs1 evs2 m1 m2 m3 :
  inner_step x evs1 m1 m2 → inner_step x evs2 m2 m3 →
  inner_step x (evs1 ++ evs2) m1 m3.
Proof.
  intros [He Ht Hk Hs Hp Hy] [He' Ht' Hk' Hs' Hp' Hy']. split; try congruence.
  - by eapply evolves_trans.
  - by rewrite Ht', Ht, (assoc_L (++)).
  - intros q Hq Hne. apply Hk'; [by apply Hk|].
    by rewrite (evolves_id _ _ He).
Qed.

Ltac preserved := intros; reflexivity.

Lemma handleConflict_inner now item serverData m :
  ∃ evs,
    inner_step (id (deref m item)) evs m (handleConflict now item serverData m) ∧
    Forall quiet evs ∧ posted_ids evs = [].
Proof.
  unfold handleConflict.
  destruct (findIndex _ m) as [[k q]|]; [|exists []; eauto using inner_refl].
  destruct (conflictResolution _).
  - exists []. split; [|done].
    repeat (apply inner_update; [preserved..|]). apply inner_refl.
  - destruct serverData as [data|].
    + exists [EvServerUpdate (type (deref m item)) data]. split.
      * apply (inner_emit _ []), inner_without; [done|apply inner_refl].
      * split; [by repeat constructor|done].
    + exists []. split; [|done]. apply inner_without; [done|apply inner_refl].
  - exists []. split; [|done].
    repeat (apply inner_update; [preserved..|]). apply inner_refl.
  - exists []. split; [|done].
    repeat (apply inner_update; [preserved..|]). apply inner_refl.
Qed.

Lemma posted_ids_app t1 t2 : posted_ids (t1 ++ t2) = posted_ids t1 ++ posted_ids t2.
Proof. apply omap_app. Qed.

Lemma request_body_offlineId o : request_body o !! "_offlineId" = Some (JStr (id o)).
Proof. unfold request_body. by simplify_map_eq. Qed.

Lemma processItem_begin_Some now item m k m1 :
  processItem_begin now item m = Some (k, m1) →
  ∃ e, inner_step (id (deref m item)) [e] m m1 ∧
       quiet e ∧ posted_ids [e] = [JStr (id (deref m item))] ∧
       queue m1 = queue m ∧ is_Some (queue m !! k).
Proof.
  unfold processItem_begin.
  destruct (findIndex _ m) as [[k' q]|] eqn:Hfind; [|done].
  intros [= -> <-]. eexists. split_and!.
  - apply (inner_emit _ []).
    repeat (apply inner_update; [preserved..|]). apply inner_refl.
  - done.
  - unfold posted_ids. simpl. rewrite request_body_offlineId.
    by rewrite !(deref_update_field id).
  - done.
  - apply list_find_Some in Hfind as [-> _]. eauto.
Qed.

Lemma processItem_begin_unique now item m k :
  unique_ids m → queue m !! k = Some item →
  ∃ m1, processItem_begin now item m = Some (k, m1).
Proof.
  intros Hu Hk. unfold processItem_begin.
  rewrite (findIndex_unique m k item Hu Hk). eauto.
Qed.

Lemma processItem_catch_inner message item k m :
  is_Some (queue m !! k) →
  ∃ m', processItem_catch message item k m = Some m' ∧
        inner_step (id (deref m item)) [] m m'.
Proof.
  intros [q Hq]. unfold processItem_catch. rewrite Hq.
  case_bool_decide; eexists; (split; [reflexivity|]);
    repeat (apply inner_update; [preserved..|]); apply inner_refl.
Qed.

Lemma processItem_finish_inner o now item k m :
  is_Some (queue m !! k) →
  ∃ m' evs, processItem_finish o now item k m = Some m' ∧
            inner_step (id (deref m item)) evs m m' ∧
            Forall quiet evs ∧ posted_ids evs = [].
Proof.
  intros Hk. unfold processItem_finish.
  destruct (ActionResult.success _).
  - destruct Hk as [q Hq]. rewrite Hq. eexists _, []. split; [reflexivity|].
    split; [|done]. apply inner_without.
    + by apply (deref_update_field id).
    + apply inner_update; [preserved..|]. apply inner_refl.
  - destruct (default false _).
    + destruct (handleConflict_inner now item
                  (ActionResult.serverData (executeAction_settle o)) m)
        as (evs & H1 & H2 & H3).
      eexists _, evs. by split.
    + destruct (processItem_catch_inner
                  (default "" (ActionResult.error (executeAction_settle o)))
                  item k m Hk) as (m' & -> & H).
      exists m', []. by split.
Qed.

(** Run without interruption, [processItem] does not throw. *)
Lemma processItem_returns a item m : is_Some (processItem a item m).
Proof.
  unfold processItem.
  destruct (processItem_begin _ item m) as [[k m1]|] eqn:Hbegin; [|done].
  destruct (processItem_begin_Some _ _ _ _ _ Hbegin) as (e & _ & _ & _ & Hq & Hk).
  rewrite <-Hq in Hk.
  destruct (processItem_finish_inner (outcome a) (mergedAt a) item k m1 Hk)
    as (m2 & evs & -> & _).
  done.
Qed.


(** The loop of a drain: the objects keep their ids, priorities and
    timestamps, the queue only loses entries, nothing is written to
    storage and nobody is notified.  When ids are unique, each item of the
    batch is sent to the server once, in the order of the batch. *)
Lemma process_batch_inner inputs batch : ∀ n m,
  ∃ evs,
    let m' := process_batch inputs n batch m in
    evolves m m' ∧ trace m' = trace m ++ evs ∧ Forall quiet evs ∧
    storage m' = storage m ∧ isProcessing m' = isProcessing m ∧
    isSyncing m' = isSyncing m ∧
    (unique_ids m → NoDup batch → Forall (λ q, q ∈ queue m) batch →
     posted_ids evs = (λ l, JStr (id (deref m l))) <$> batch).
Proof.
  induction batch as [|item rest IH]; intros n m.
  { exists []. simpl. rewrite app_nil_r. eauto 10 using evolves_refl. }
  cbn [process_batch].
  destruct (processItem_begin _ item m) as [[k m1]|] eqn:Hbegin.
  - destruct (processItem_begin_Some _ _ _ _ _ Hbegin)
      as (e & Hin1 & He & Hpost & Hq1 & Hk).
    rewrite <-Hq1 in Hk.
    destruct (processItem_finish_inner (outcome (inputs n)) (mergedAt (inputs n))
                item k m1 Hk) as (m2 & evs2 & -> & Hin2 & Hquiet2 & Hpost2).
    assert (id (deref m1 item) = id (deref m item)) as Hid
      by apply (evolves_id _ _ (inner_evolves _ _ _ _ Hin1)).
    rewrite Hid in Hin2.
    pose proof (inner_trans _ _ _ _ _ _ Hin1 Hin2) as Hin.
    destruct (IH (S n) m2) as (evs3 & Hev & Htr & Hquiet3 & Hst & Hp & Hy & Hposts).
    destruct Hin as [He12 Ht12 Hk12 Hs12 Hp12 Hy12].
    exists (([e] ++ evs2) ++ evs3). split_and!; try congruence.
    + by eapply evolves_trans.
    + simpl in *. by rewrite Htr, Ht12, <-!(assoc_L (++)).
    + repeat (apply Forall_app; split); [by constructor|done..].
    + intros Hu Hnd Hall.
      apply NoDup_cons in Hnd as [Hnotin Hnd].
      apply Forall_cons in Hall as [Hitem Hall].
      rewrite !posted_ids_app, Hpost, Hpost2. simpl. f_equal.
      rewrite Hposts.
      * apply list_fmap_ext. intros ? l _. by rewrite (evolves_id _ _ He12).
      * by eapply unique_ids_evolves.
      * done.
      * rewrite Forall_forall in *. intros q Hq. apply Hk12; [by apply Hall|].
        intros Heq. apply Hnotin.
        assert (q = item) as ->; [|done].
        eapply unique_ids_inj; eauto.
  - destruct (IH n m) as (evs3 & Hev & Htr & Hquiet3 & Hst & Hp & Hy & Hposts).
    exists evs3. split_and!; try done.
    intros Hu Hnd Hall. exfalso.
    apply Forall_cons in Hall as [Hitem _].
    apply list_elem_of_lookup in Hitem as [k Hk].
    destruct (processItem_begin_unique (startedAt (inputs n)) item m k Hu Hk).
    congruence.
Qed.

(** ** A whole drain *)

Lemma select_batch_sublist m : select_batch m `sublist_of` queue m.
Proof.
  unfold select_batch. etrans; [apply sublist_take|apply sublist_filter].
Qed.

Lemma processQueue_cases connected inputs written m :
  let m' := processQueue connected inputs written m in
  (m' = m ∧ (isProcessing m = true ∨ queue m = [] ∨ connected = false)) ∨
  (isProcessing m = false ∧ connected = true ∧
   ∃ evs,
     evolves m m' ∧
     trace m' = trace m ++ evs ++ [EvPersist (snapshot m') written;
                                   EvNotify (snapshot m')] ∧
     Forall quiet evs ∧
     isProcessing m' = false ∧ isSyncing m' = false ∧
     storage m' = (if written then Some (snapshot m') else storage m) ∧
     (unique_ids m →
      posted_ids evs = (λ l, JStr (id (deref m l))) <$> select_batch m)).
Proof.
  intros m'. subst m'. unfold processQueue.
  destruct (isProcessing m) eqn:Hp; [left; eauto|].
  case_bool_decide as Hlen.
  { left. split; [done|]. right. left. by destruct (queue m). }
  destruct connected; simpl; [|left; eauto].
  right. split_and!; try done.
  set (m0 := set_isSyncing true (set_isProcessing true m)).
  destruct (process_batch_inner inputs (select_batch m0) 0 m0)
    as (evs & Hev & Htr & Hquiet & Hst & _ & _ & Hposts).
  exists evs. cbn zeta in Hev, Htr, Hst.
  set (m1 := process_batch inputs 0 (select_batch m0) m0) in *.
  assert (evolves m m1) as Hev'.
  { apply (evolves_trans _ m0); [by apply evolves_same_objects|done]. }
  change (trace m0) with (trace m) in Htr.
  change (storage m0) with (storage m) in Hst.
  split_and!.
  - apply (evolves_trans _ m1); [exact Hev'|].
    by destruct written; apply evolves_same_objects.
  - unfold processQueue_finally. destruct written; simpl;
      rewrite Htr; by rewrite <-!(assoc_L (++)).
  - done.
  - by destruct written.
  - by destruct written.
  - destruct written; simpl; [done|]. by rewrite Hst.
  - intros Hu. apply Hposts.
    + exact Hu.
    + eapply sublist_NoDup; [apply (unique_ids_NoDup m Hu)|].
      apply (select_batch_sublist m0).
    + apply Forall_forall. intros q Hq.
      eapply elem_of_sublist; [exact Hq|]. apply (select_batch_sublist m0).
Qed.

(** ** The queue stays sorted *)

Lemma StronglySorted_fmap_inv {A B} (f : A → B) (R : relation B) l :
  StronglySorted R (f <$> l) → StronglySorted (λ x y, R (f x) (f y)) l.
Proof.
  induction l as [|x l IH]; csimpl; intros Hs; [constructor|].
  apply StronglySorted_cons in Hs as [Hx Hs].
  constructor; [by apply IH|].
  apply Forall_forall. intros y Hy.
  rewrite Forall_forall in Hx. apply Hx.
  apply list_elem_of_fmap. eauto.
Qed.

Lemma items_sorted_snapshot m : queue_sorted m → items_sorted (snapshot m).
Proof.
  unfold queue_sorted, items_sorted, snapshot.
  by apply StronglySorted_fmap.
Qed.

Lemma ordered_evolves m m' :
  evolves m m' → storage m' = storage m → ordered m → ordered m'.
Proof.
  intros He Hst [Hq Hs]. split; [by eapply queue_sorted_evolves|].
  unfold storage_sorted. by rewrite Hst.
Qed.

Lemma ordered_persist_notify written m :
  ordered m → ordered (notifyListeners (persistQueue written m)).
Proof.
  intros [Hq Hs]. split.
  - by destruct written.
  - intros stored. destruct written; simpl; [|apply Hs].
    intros [= <-]. by apply items_sorted_snapshot.
Qed.

Lemma ordered_persist written m : ordered m → ordered (persistQueue written m).
Proof.
  intros [Hq Hs]. split.
  - by destruct written.
  - intros stored. destruct written; simpl; [|apply Hs].
    intros [= <-]. by apply items_sorted_snapshot.
Qed.

Lemma queue_sorted_sortQueue m : queue_sorted (sortQueue m).
Proof. unfold queue_sorted, sortQueue. simpl. apply StronglySorted_stable_sort; apply _. Qed.

Lemma queue_sorted_enqueue uuid now written ty p options m :
  queue_sorted (enqueue uuid now written ty p options m).2.
Proof.
  unfold enqueue. cbn [snd].
  match goal with
  | |- queue_sorted (notifyListeners (persistQueue _ ?m1)) =>
      pose proof (queue_sorted_sortQueue
                    (set_queue (queue m ++ [length (heap m)])
                       (set_heap (heap m ++ [
                          mkItem uuid ty p now 0
                            (option_or options EnqueueOptions.maxRetries
                                       OFFLINE_CONFIG.defaultMaxRetries)
                            (option_or options EnqueueOptions.priority
                                       (getDefaultPriority ty))
                            (option_or options EnqueueOptions.conflictResolution
                                       OFFLINE_CONFIG.defaultConflictResolution)
                            pending None None None 1]) m))) as Hs
  end.
  by destruct written.
Qed.

Lemma ordered_enqueue uuid now written ty p options m :
  ordered m → ordered (enqueue uuid now written ty p options m).2.
Proof.
  intros [_ Hs]. split; [apply queue_sorted_enqueue|].
  pose proof (queue_sorted_enqueue uuid now true ty p options m) as Hq.
  apply items_sorted_snapshot in Hq.
  intros stored. unfold enqueue. destruct written; simpl; [|apply Hs].
  intros [= <-]. exact Hq.
Qed.

Lemma evolves_foldl_retry_if_failed qs m :
  evolves m (foldl retry_if_failed m qs) ∧
  storage (foldl retry_if_failed m qs) = storage m ∧
  isProcessing (foldl retry_if_failed m qs) = isProcessing m ∧
  trace (foldl retry_if_failed m qs) = trace m.
Proof.
  revert m. induction qs as [|q qs IH]; intros m; cbn [foldl].
  { split; [apply evolves_refl|done]. }
  destruct (IH (retry_if_failed m q)) as (He & Hs & Hp & Ht).
  assert (evolves m (retry_if_failed m q) ∧
          storage (retry_if_failed m q) = storage m ∧
          isProcessing (retry_if_failed m q) = isProcessing m ∧
          trace (retry_if_failed m q) = trace m) as (He' & Hs' & Hp' & Ht').
  { unfold retry_if_failed. case_decide; [|split; [apply evolves_refl|done]].
    split; [|done].
    eapply evolves_trans; apply evolves_update; preserved. }
  split_and!; try congruence. by eapply evolves_trans.
Qed.

Lemma lookup_total_app_seq (h stored : list OfflineQueueItem) :
  (λ j, (h ++ stored) !!! j) <$> seq (length h) (length stored) = stored.
Proof.
  revert h. induction stored as [|x s IH]; intros h; [done|].
  cbn [length seq]. csimpl. f_equal.
  - by rewrite list_lookup_total_middle.
  - rewrite (cons_middle x h s), (assoc_L (++)).
    specialize (IH (h ++ [x])). rewrite length_app in IH. simpl in IH.
    by rewrite Nat.add_1_r in IH.
Qed.

Lemma queue_sorted_initialize m : storage_sorted m → queue_sorted m → queue_sorted (initialize m).
Proof.
  intros Hs Hq. unfold initialize.
  destruct (storage m) as [stored|] eqn:Hst; [|done].
  unfold queue_sorted. simpl. unfold before_ref.
  apply (StronglySorted_fmap_inv (λ j, (heap m ++ stored) !!! j) before).
  rewrite lookup_total_app_seq. by apply Hs.
Qed.

Lemma ordered_perform op m : ordered m → ordered (perform op m).
Proof.
  intros Ho. destruct op as [uuid t w ty p options|c inputs w|w i|w i|w|t w maxAgeMs|]; simpl.
  - by apply ordered_enqueue.
  - destruct (processQueue_cases c inputs w m)
      as [[-> _]|(_ & _ & evs & He & _ & _ & _ & _ & Hst & _)]; [done|].
    destruct Ho as [Hq Hs].
    assert (queue_sorted (processQueue c inputs w m)) as Hq'
      by (by eapply queue_sorted_evolves).
    split; [done|].
    intros stored. rewrite Hst. destruct w; [|apply Hs].
    intros [= <-]. by apply items_sorted_snapshot.
  - apply ordered_persist_notify.
    eapply ordered_evolves; [apply (evolves_filter _ m)|done..].
  - unfold retryItem. destruct (findIndex i m) as [[k q]|]; [|done].
    apply ordered_persist.
    apply (ordered_evolves m); [|done..].
    eapply evolves_trans; apply evolves_update; preserved.
  - unfold retryAllFailed. apply ordered_persist.
    destruct (evolves_foldl_retry_if_failed (queue m) m) as (He & Hs & _).
    by apply (ordered_evolves m).
  - unfold clearOldItems. apply ordered_persist.
    apply (ordered_evolves m); [apply (evolves_filter _ m)|done..].
  - destruct Ho as [Hq Hs]. split; [by apply queue_sorted_initialize|].
    unfold initialize. destruct (storage m) eqn:Hst; [|done].
    intros stored. simpl. rewrite Hst. intros [= <-]. apply Hs. exact Hst.
Qed.

Lemma reachable_ordered m : reachable m → ordered m ∧ isProcessing m = false.
Proof.
  induction 1 as [|m op Hr [Ho Hp]].
  - split; [|done]. split; [constructor|]. by intros stored.
  - split; [by apply ordered_perform|].
    destruct op as [uuid t w ty p options|c inputs w|w i|w i|w|t w maxAgeMs|]; simpl; try done.
    + unfold enqueue. by destruct w.
    + destruct (processQueue_cases c inputs w m)
        as [[-> _]|(_ & _ & evs & _ & _ & _ & Hp' & _)]; done.
    + by destruct w.
    + unfold retryItem. destruct (findIndex i m) as [[k q]|]; [|done].
      by destruct w.
    + unfold retryAllFailed. destruct w; simpl;
        by rewrite (proj1 (proj2 (proj2 (evolves_foldl_retry_if_failed (queue m) m)))).
    + by destruct w.
    + unfold initialize. by destruct (storage m).
Qed.

Lemma emitted_app m m' evs : trace m' = trace m ++ evs → emitted m m' = evs.
Proof. intros H. unfold emitted. rewrite H. by rewrite drop_app_length. Qed.

Lemma emitted_same m : emitted m m = [].
Proof. unfold emitted. by rewrite drop_all. Qed.

Lemma posted_ids_quiet_tail evs j1 w j2 :
  posted_ids (evs ++ [EvPersist j1 w; EvNotify j2]) = posted_ids evs.
Proof. rewrite posted_ids_app. simpl. by rewrite app_nil_r. Qed.

Lemma reachable_perform_all ops m : reachable m → reachable (perform_all ops m).
Proof.
  revert m. induction ops as [|op ops IH]; intros m Hm; [done|].
  apply IH. by constructor.
Qed.

(** C5: between operations the queue is sorted by priority, highest first,
    and within one priority by timestamp, oldest first.  [enqueue] sorts
    the queue whatever state it starts from, every operation keeps a sorted
    queue sorted, and a drain sends the items it selected to the server in
    the order of the queue. *)
Theorem queue_always_sorted m :
  reachable m →
  queue_sorted m ∧
  (∀ m0 uuid t w ty p options, queue_sorted (enqueue uuid t w ty p options m0).2) ∧
  (∀ op, queue_sorted (perform op m)) ∧
  (∀ inputs w, unique_ids m →
     let m' := processQueue true inputs w m in
     posted_ids (emitted m m') = (λ l, JStr (id (deref m l))) <$> select_batch m ∧
     StronglySorted (before_ref (heap m)) (select_batch m)).
Proof.
  intros Hr. destruct (reachable_ordered m Hr) as [[Hq Hs] Hp].
  split_and!.
  - done.
  - intros. apply queue_sorted_enqueue.
  - intros op. by apply ordered_perform.
  - intros inputs w Hu m'. split.
    + subst m'.
      destruct (processQueue_cases true inputs w m)
        as [[-> [?|[Hnil|?]]]|(_ & _ & evs & _ & Htr & _ & _ & _ & _ & Hposts)];
        try congruence.
      * rewrite emitted_same. unfold select_batch. by rewrite Hnil.
      * rewrite (emitted_app _ _ _ Htr), posted_ids_quiet_tail. by apply Hposts.
    + apply (StronglySorted_sublist _ (queue m)); [apply select_batch_sublist|done].
Qed.

Lemma queue_always_sorted_witness :
  let m := perform_all Examples.report_then_check_in new_manager in
  posted_ids (emitted m (processQueue true Examples.acknowledged true m)) =
    [JStr "in"; JStr "rep"].
Proof.
  intros m.
  assert (reachable m) as Hr by apply reachable_perform_all, reachable_new.
  assert (unique_ids m) as Hu by (apply (bool_decide_unpack _); by vm_compute).
  destruct (queue_always_sorted m Hr) as (_ & _ & _ & H).
  destruct (H Examples.acknowledged true Hu) as [-> _].
  by vm_compute.
Defined.

(** ** Persistence comes before notification *)

Lemma notified_after_weaken last t :
  notified_after None t → notified_after last t.
Proof. destruct t as [|[] t]; simpl; try done. by intros [? _]. Qed.

Lemma notified_after_app last t1 t2 :
  notified_after last t1 → notified_after None t2 → notified_after last (t1 ++ t2).
Proof.
  revert last. induction t1 as [|e t1 IH]; intros last H1 H2; simpl in *.
  - by apply notified_after_weaken.
  - destruct e; try destruct H1; try split; auto.
Qed.

Lemma notified_after_quiet t : Forall quiet t → notified_after None t.
Proof.
  induction 1 as [|e t He Ht IH]; simpl; [done|].
  destruct e; simpl in *; try done.
Qed.

Lemma persisted_before_notified_tail evs json w :
  Forall quiet evs →
  persisted_before_notified (evs ++ [EvPersist json w; EvNotify json]).
Proof.
  intros Hq. apply notified_after_app; [by apply notified_after_quiet|].
  simpl. done.
Qed.

Lemma notified_is_stored_quiet m' evs : Forall quiet evs → notified_is_stored m' evs.
Proof.
  intros Hq seen Hin. rewrite Forall_forall in Hq. by apply Hq in Hin.
Qed.

Lemma notified_is_stored_tail m' m0 evs (w : bool) :
  Forall quiet evs →
  storage m' = (if w then Some (snapshot m') else storage m0) →
  notified_is_stored m' (evs ++ [EvPersist (snapshot m') w; EvNotify (snapshot m')]).
Proof.
  intros Hq Hst seen Hin. rewrite Forall_forall in Hq.
  apply elem_of_app in Hin as [Hin|Hin]; [by apply Hq in Hin|].
  apply elem_of_cons in Hin as [?|Hin]; [done|].
  apply list_elem_of_singleton in Hin as [= ->].
  split; [done|]. exists w. split; [set_solver|].
  intros ->. exact Hst.
Qed.

Lemma persist_notify_trace (w : bool) m :
  let m' := notifyListeners (persistQueue w m) in
  trace m' = trace m ++ [] ++ [EvPersist (snapshot m') w; EvNotify (snapshot m')] ∧
  storage m' = (if w then Some (snapshot m') else storage m).
Proof. destruct w; simpl; by rewrite <-(assoc_L (++)). Qed.

Lemma notified_is_stored_persist m' json w : notified_is_stored m' [EvPersist json w].
Proof. intros seen Hin. by apply list_elem_of_singleton in Hin. Qed.

Lemma persist_trace w m :
  trace (persistQueue w m) = trace m ++ [EvPersist (snapshot m) w].
Proof. by destruct w. Qed.

Ltac ends_with_persist_notify w :=
  match goal with
  | |- context [notifyListeners (persistQueue w ?m1)] =>
      let Ht := fresh "Ht" in
      let Hs := fresh "Hs" in
      destruct (persist_notify_trace w m1) as [Ht Hs];
      eexists; split; [exact Ht|];
      split; [by apply persisted_before_notified_tail|];
      by eapply notified_is_stored_tail
  end.

Ltac ends_with_persist :=
  eexists; split; [exact (persist_trace _ _)|];
  split; [done|apply notified_is_stored_persist].

Lemma perform_trace op m :
  ∃ evs, trace (perform op m) = trace m ++ evs ∧
         persisted_before_notified evs ∧
         notified_is_stored (perform op m) evs.
Proof.
  destruct op as [uuid t w ty p options|c inputs w|w i|w i|w|t w maxAgeMs|];
    cbn [perform].
  - unfold enqueue. cbn [snd]. ends_with_persist_notify w.
  - destruct (processQueue_cases c inputs w m)
      as [[-> _]|(_ & _ & evs & _ & Htr & Hq & _ & _ & Hst & _)].
    + exists []. rewrite app_nil_r. split; [done|]. split; [done|].
      by apply notified_is_stored_quiet.
    + eexists. split; [exact Htr|].
      split; [by apply persisted_before_notified_tail|].
      by eapply notified_is_stored_tail.
  - unfold removeItem. ends_with_persist_notify w.
  - unfold retryItem. destruct (findIndex i m) as [[k q]|].
    + ends_with_persist.
    + exists []. rewrite app_nil_r. split; [done|]. split; [done|].
      by apply notified_is_stored_quiet.
  - unfold retryAllFailed.
    destruct (evolves_foldl_retry_if_failed (queue m) m) as (_ & _ & _ & Ht).
    rewrite <-Ht. ends_with_persist.
  - unfold clearOldItems. ends_with_persist.
  - exists []. rewrite app_nil_r. split; [|split; [done|by apply notified_is_stored_quiet]].
    unfold initialize. by destruct (storage m).
Qed.

(** C7, as the code has it: in every operation, run to its end, a
    notification comes right after [persistQueue] was called on the very
    queue the notification reports, and never without that call; when the
    write succeeded, storage holds what the listeners are told.  A failed
    write is caught and logged by [persistQueue], and the notification
    follows all the same.  Over the whole life of a manager whose
    operations run one after the other, no notification comes before the
    call of [persistQueue] for what it reports. *)
Theorem notifications_follow_persistence m :
  reachable m →
  persisted_before_notified (trace m) ∧
  ∀ op, ∃ evs,
    trace (perform op m) = trace m ++ evs ∧
    persisted_before_notified evs ∧
    notified_is_stored (perform op m) evs.
Proof.
  intros Hr. split; [|intros op; apply perform_trace].
  induction Hr as [|m op Hr IH]; [done|].
  destruct (perform_trace op m) as (evs & -> & Hevs & _).
  by apply notified_after_app.
Qed.

Lemma notifications_follow_persistence_witness :
  persisted_before_notified
    (trace (perform_all (Examples.report_then_check_in ++
                         [ProcessQueue true Examples.timing_out true;
                          RemoveItem false "rep"]) new_manager)).
Proof.
  apply notifications_follow_persistence.
  apply reachable_perform_all, reachable_new.
Defined.

(** C7 as stated fails when the write to storage fails: [removeItem]
    notifies the listeners of a queue without the report, while storage
    still holds the queue with it. *)
Lemma notification_without_stored_write :
  let m := perform_all Examples.report_then_check_in new_manager in
  let m' := perform (RemoveItem false "rep") m in
  emitted m m' = [EvPersist (snapshot m') false; EvNotify (snapshot m')] ∧
  (id <$> snapshot m') = ["in"] ∧
  (fmap (M := list) id <$> storage m') = Some ["in"; "rep"] ∧
  storage m' ≠ Some (snapshot m').
Proof.
  split_and!; by vm_compute.
Qed.

(** On its own, [removeItem] is its two stretches one after the other. *)
Lemma removeItem_alone w i m :
  removeItem w i m =
    leave_finally (removeItem_begin i m).1 w (removeItem_begin i m).2.
Proof. by destruct w. Qed.

(** The order is within one operation.  When a drain goes on while
    [removeItem] waits for storage, the listeners of [removeItem] are told
    of a queue, here the empty one, that has not been handed to storage
    yet. *)
Lemma notification_overtakes_drain :
  let m := Examples.removal_during_drain in
  (id <$> snapshot m) = [] ∧
  (fmap (M := list) id <$> storage m) = Some ["in"] ∧
  ¬ persisted_before_notified (trace m).
Proof.
  split_and!; [by vm_compute..|].
  vm_compute. intros (_ & _ & H & _). discriminate H.
Qed.

(** ** Ids stay unique and references stay valid *)

Lemma well_formed_evolves m m' :
  evolves m m' → storage m' = storage m → well_formed m → well_formed m'.
Proof.
  intros He Hst (Hv & Hu & Hs). split_and!.
  - by eapply valid_refs_evolves.
  - by eapply unique_ids_evolves.
  - unfold storage_unique. by rewrite Hst.
Qed.

Lemma well_formed_persist w m : well_formed m → well_formed (persistQueue w m).
Proof.
  intros (Hv & Hu & Hs). split_and!; [by destruct w..|].
  intros stored. destruct w; simpl; [|apply Hs]. by intros [= <-].
Qed.

Lemma well_formed_notify m : well_formed m → well_formed (notifyListeners m).
Proof. done. Qed.

Lemma well_formed_enqueue uuid t w ty p options m :
  well_formed m → uuid ∉ (id <$> snapshot m) →
  well_formed (enqueue uuid t w ty p options m).2.
Proof.
  intros (Hv & Hu & Hs) Hfresh. unfold enqueue. cbn [snd].
  apply well_formed_notify, well_formed_persist.
  match goal with |- well_formed (sortQueue ?m1) => set (pushed := m1) end.
  assert (∀ q, q ∈ queue m → deref pushed q = deref m q) as Hold.
  { intros q Hq. unfold deref, pushed. simpl.
    apply lookup_total_app_l.
    unfold valid_refs in Hv. rewrite Forall_forall in Hv. by apply Hv. }
  assert (deref pushed (length (heap m)) =
          mkItem uuid ty p t 0
            (option_or options EnqueueOptions.maxRetries OFFLINE_CONFIG.defaultMaxRetries)
            (option_or options EnqueueOptions.priority (getDefaultPriority ty))
            (option_or options EnqueueOptions.conflictResolution
                       OFFLINE_CONFIG.defaultConflictResolution)
            pending None None None 1) as Hnew.
  { unfold deref, pushed. simpl. by rewrite list_lookup_total_middle. }
  assert (queue (sortQueue pushed) ≡ₚ queue m ++ [length (heap m)]) as Hperm.
  { unfold sortQueue. simpl. apply stable_sort_Permutation. }
  split_and!.
  - unfold valid_refs. rewrite Hperm. simpl. rewrite length_app. simpl.
    apply Forall_app. split.
    + eapply Forall_impl; [exact Hv|]. intros q Hq. simpl in Hq. lia.
    + constructor; [lia|constructor].
  - unfold unique_ids, snapshot. rewrite <-list_fmap_compose.
    change (deref (sortQueue pushed)) with (deref pushed).
    rewrite Hperm, fmap_app. simpl. rewrite Hnew. simpl.
    rewrite (list_fmap_ext (id ∘ deref pushed) (id ∘ deref m) (queue m)).
    + apply NoDup_app. split_and!.
      * unfold unique_ids, snapshot in Hu. by rewrite <-list_fmap_compose in Hu.
      * intros x Hx Hx'. apply list_elem_of_singleton in Hx' as ->.
        apply Hfresh. unfold snapshot. by rewrite <-list_fmap_compose.
      * apply NoDup_singleton.
    + intros i q Hq. simpl. rewrite Hold; [done|].
      by eapply list_elem_of_lookup_2.
  - exact Hs.
Qed.

Lemma well_formed_initialize m : well_formed m → well_formed (initialize m).
Proof.
  intros (Hv & Hu & Hs). unfold initialize.
  destruct (storage m) as [stored|] eqn:Hst; [|done].
  split_and!.
  - unfold valid_refs. simpl. rewrite length_app.
    apply Forall_forall. intros q Hq. apply elem_of_seq in Hq. lia.
  - unfold unique_ids, snapshot, deref. simpl.
    rewrite lookup_total_app_seq. by apply Hs.
  - intros stored'. simpl. rewrite Hst. intros [= <-]. by apply Hs.
Qed.

(** With fresh ids from [uuidv4], every operation keeps the ids in the
    queue unique and the references of the queue valid. *)
Lemma well_formed_perform op m :
  well_formed m → admissible op m → well_formed (perform op m).
Proof.
  intros Hwf Hadm.
  destruct op as [uuid t w ty p options|c inputs w|w i|w i|w|t w maxAgeMs|];
    cbn [perform].
  - by apply well_formed_enqueue.
  - destruct (processQueue_cases c inputs w m)
      as [[-> _]|(_ & _ & evs & He & _ & _ & _ & _ & Hst & _)]; [done|].
    destruct Hwf as (Hv & Hu & Hs).
    assert (unique_ids (processQueue c inputs w m)) as Hu'
      by (by eapply unique_ids_evolves).
    split_and!; [by eapply valid_refs_evolves|done|].
    intros stored. rewrite Hst. destruct w; [|apply Hs]. by intros [= <-].
  - apply well_formed_notify, well_formed_persist.
    apply (well_formed_evolves m); [apply (evolves_filter _ m)|done..].
  - unfold retryItem. destruct (findIndex i m) as [[k q]|]; [|done].
    apply well_formed_persist.
    apply (well_formed_evolves m); [|done..].
    eapply evolves_trans; apply evolves_update; preserved.
  - unfold retryAllFailed. apply well_formed_persist.
    destruct (evolves_foldl_retry_if_failed (queue m) m) as (He & Hs & _).
    by apply (well_formed_evolves m).
  - unfold clearOldItems. apply well_formed_persist.
    apply (well_formed_evolves m); [apply (evolves_filter _ m)|done..].
  - by apply well_formed_initialize.
Qed.

Lemma well_formed_new : well_formed new_manager.
Proof.
  split_and!; [constructor|constructor|]. by intros stored.
Qed.

(** ** A call of [processQueue] on its own

    Let go on whenever it waits and with nothing else running, a call
    ends in the state [processQueue] gives: the two descriptions of a
    drain agree. *)

Lemma drive_Returned ws fuel k m : drive ws fuel k Returned m = (Returned, m).
Proof. by destruct fuel. Qed.

Lemma drive_batch ws wr batch :
  (∀ k, written (ws k) = wr) →
  ∀ n m,
    ∃ fuel,
      drive ws fuel (2 + n) (next_item (now (ws (1 + n)%nat)) batch m).1
                            (next_item (now (ws (1 + n)%nat)) batch m).2 =
      (Returned, processQueue_finally wr (process_batch (inputs_of ws) n batch m)).
Proof.
  intros Hwr. induction batch as [|item rest IH]; intros n m.
  { exists 1%nat. cbn [next_item enter_finally fst snd drive drain_step].
    rewrite Hwr. destruct wr; reflexivity. }
  cbn [next_item process_batch].
  change (startedAt (inputs_of ws n)) with (now (ws (1 + n)%nat)).
  destruct (processItem_begin _ item m) as [[i m1]|]; [|apply IH].
  cbn [fst snd].
  change (outcome (inputs_of ws n)) with (answer (ws (2 + n)%nat)).
  change (mergedAt (inputs_of ws n)) with (now (ws (2 + n)%nat)).
  destruct (processItem_finish _ _ item i m1) as [m2|] eqn:Hfin.
  - destruct (IH (S n) m2) as [fuel Hfuel].
    exists (S fuel). cbn [drive drain_step]. rewrite Hfin.
    destruct (next_item (now (ws (1 + S n)%nat)) rest m2) as [d m3] eqn:Hnext.
    change (now (ws (2 + n)%nat)) with (now (ws (1 + S n)%nat)).
    rewrite Hnext. exact Hfuel.
  - exists 2%nat. cbn [drive drain_step]. rewrite Hfin.
    cbn [enter_finally drain_step]. rewrite Hwr. destruct wr; reflexivity.
Qed.

Lemma drain_alone_is_processQueue ws wr m :
  (∀ k, written (ws k) = wr) →
  ∃ fuel,
    drive ws fuel 0 NotCalled m =
    (Returned, processQueue (connected (ws 1%nat)) (inputs_of ws) wr m).
Proof.
  intros Hwr. unfold processQueue.
  destruct (isProcessing m || bool_decide (length (queue m) = 0%nat)) eqn:Hguard.
  { exists 1%nat. cbn [drive drain_step]. rewrite Hguard. reflexivity. }
  destruct (connected (ws 1%nat)) eqn:Hc; cbn [negb].
  - destruct (drive_batch ws wr
                (select_batch (set_isSyncing true (set_isProcessing true m)))
                Hwr 0 (set_isSyncing true (set_isProcessing true m)))
      as [fuel Hfuel].
    exists (S (S fuel)). cbn [drive drain_step]. rewrite Hguard.
    cbn [drive drain_step]. rewrite Hc. cbn [negb].
    destruct (next_item _ _ _) as [d m1]. exact Hfuel.
  - exists 2%nat. cbn [drive drain_step]. rewrite Hguard.
    cbn [drive drain_step]. rewrite Hc. reflexivity.
Qed.

(** ** Two scenarios *)

(** A check-in queued while offline is [pending] with priority 100; once
    online it is sent once, acknowledged, and the queue is empty. *)
Example check_in_offline_then_online :
  let m1 := perform_all [ Enqueue "in" 1 true "attendance_check_in" ∅ None;
                          ProcessQueue false Examples.acknowledged true ]
                        new_manager in
  let m2 := perform (ProcessQueue true Examples.acknowledged true) m1 in
  ((λ o, (status o, priority o)) <$> snapshot m1) = [(pending, 100)] ∧
  posted_ids (trace m1) = [] ∧
  posted_ids (trace m2) = [JStr "in"] ∧
  getStats m2 = Stats.mk 0 0 0 0.
Proof. by vm_compute. Qed.

(** A report with manual conflict resolution that meets a conflict ends
    [failed] with the server's version recorded and its payload as it
    was. *)
Example manual_conflict :
  let conflict := λ _ : nat,
    mkAttempt 10
      (Resolved (ApiResponse.mk true
         (Some (ConflictData.mk (Some true) (Some Examples.server_report))) None))
      11 in
  let m1 := perform_all
              [ Enqueue "r" 3 true "report_submit" {[ "title" := JStr "Visit" ]}
                        (Some (EnqueueOptions.mk None (Some manual) None)) ]
              new_manager in
  let m2 := perform (ProcessQueue true conflict true) m1 in
  ((λ o, (status o, serverVersion o, payload o)) <$> snapshot m2) =
    [(failed, Some (JNum 7), {[ "title" := JStr "Visit" ]})].
Proof. by vm_compute. Qed.

(** ** Where the code departs from the specification *)

(** The selection of a drain does not look at the retry budget. *)
Lemma failed_is_selected_whatever_the_count m q :
  status (deref m q) = failed → selectable m q.
Proof. intros Hs. by right. Qed.

(** C1 (the code does not keep to the claim): [processQueue] selects
    every entry that is [pending] or [failed] and does not look at
    [retryCount].  A check-in with [maxRetries] 2 whose requests time out
    is [failed] with [retryCount] 2 after two drains; the third drain
    sends it again and leaves it with [retryCount] 3. *)
Theorem exhausted_item_is_sent_again :
  let m0 := perform_all Examples.check_in_budget_two new_manager in
  let m2 := perform_all [Examples.drain_timing_out; Examples.drain_timing_out] m0 in
  let m3 := perform Examples.drain_timing_out m2 in
  ((λ o, (status o, retryCount o, maxRetries o)) <$> snapshot m2) = [(failed, 2, 2)] ∧
  select_batch m2 = queue m2 ∧
  posted_ids (emitted m2 m3) = [JStr "a"] ∧
  ((λ o, (status o, retryCount o, maxRetries o)) <$> snapshot m3) = [(failed, 3, 2)].
Proof. by vm_compute. Qed.

(** C6 (the code does not keep to the claim): [executeAction] never reads
    [response.success].  A response that reports an error without
    throwing, such as the mock server's NOT_FOUND, is taken for a success,
    and the drain drops the item from the queue as completed. *)
Theorem error_response_taken_for_success :
  (∀ e, executeAction_settle (Resolved (ApiResponse.mk false None e)) =
        ActionResult.mk true None None None) ∧
  let m := perform_all Examples.check_out_queued new_manager in
  let m' := perform (ProcessQueue true Examples.refused true) m in
  (id <$> snapshot m) = ["out"] ∧
  posted_ids (emitted m m') = [JStr "out"] ∧
  snapshot m' = [] ∧
  storage m' = Some [].
Proof. split; [done|]. by vm_compute. Qed.

(** The guard of [processQueue] does hold once the flag is set. *)
Lemma guard_holds_once_set w m :
  isProcessing m = true → drain_step w NotCalled m = (Returned, m).
Proof. intros Hp. simpl. by rewrite Hp. Qed.

(** It does not hold before: two calls in a row both get past it. *)
Lemma guard_passed_twice w1 w2 m :
  isProcessing m = false → queue m ≠ [] →
  drains (run [(0, w1); (1, w2)]%nat (calls_on 2 m)) = [AwaitNetInfo; AwaitNetInfo].
Proof.
  intros Hp Hq. unfold run, calls_on. simpl. rewrite Hp.
  destruct (queue m) as [|q qs] eqn:Hqueue; [done|]. simpl.
  rewrite Hp, Hqueue. reflexivity.
Qed.

(** C3 (the code does not keep to the claim): [isProcessing] is tested
    before [await NetInfo.fetch()] and set after it.  A second call made
    while the first still waits for [NetInfo] passes the guard as well.
    With a check-in and a report queued, both calls then reach the
    network, and the report is sent twice. *)
Theorem second_call_passes_guard :
  let m := perform_all Examples.report_then_check_in new_manager in
  let started := run Examples.both_called (calls_on 2 m) in
  let ended := run Examples.taking_turns (calls_on 2 m) in
  isProcessing m = false ∧
  drains started = [AwaitNetInfo; AwaitNetInfo] ∧
  posts started = [] ∧
  drains ended = [Returned; Returned] ∧
  posted_ids (posts_of 0 ended) = [JStr "in"; JStr "rep"] ∧
  posted_ids (posts_of 1 ended) = [JStr "rep"] ∧
  posted_ids (trace (manager ended)) = [JStr "in"; JStr "rep"; JStr "rep"].
Proof. by vm_compute. Qed.


(** * Further properties *)

(** ** One attempt on one object *)














(** ** One drain, item by item *)







(** ** The retry count over several drains *)








(** ** What holds between operations *)


Lemma reachable_fresh_well_formed m : reachable_fresh m → well_formed m.
Proof.
  induction 1 as [|m op Hr IH Hadm]; [apply well_formed_new|].
  by apply well_formed_perform.
Qed.


Lemma settled_same_objects m m' :
  (∀ l, l ∈ queue m' → l ∈ queue m ∧ deref m' l = deref m l) →
  settled m → settled m'.
Proof.
  unfold settled. rewrite !Forall_forall. intros H Hs l Hl.
  destruct (H l Hl) as [Hin Heq]. unfold selectable. rewrite Heq. by apply Hs.
Qed.















Lemma Cases2_busy_day_fresh : reachable_fresh Cases2.busy_day.
Proof.
  unfold Cases2.busy_day.
  repeat (apply fresh_perform; [|try exact I]); [apply fresh_new|..];
    cbn [admissible]; apply (bool_decide_unpack _); by vm_compute.
Qed.





(** X6: as long as [uuidv4] never repeats an id that is queued, no two
    entries of the queue carry the same id, no object is queued twice and
    every entry points at an object, after whatever operations; the same
    holds for what was written to storage. *)
Theorem ids_stay_unique m :
  reachable_fresh m →
  NoDup (id <$> getQueue m) ∧ NoDup (queue m) ∧
  Forall (λ q, is_Some (heap m !! q)) (queue m) ∧
  ∀ stored, storage m = Some stored → NoDup (id <$> stored).
Proof.
  intros Hr. destruct (reachable_fresh_well_formed m Hr) as (Hv & Hu & Hst).
  split_and!; [done|by apply unique_ids_NoDup| |done].
  eapply Forall_impl; [exact Hv|]. intros q Hq. by apply lookup_lt_is_Some.
Qed.

Lemma ids_stay_unique_witness : NoDup (id <$> getQueue Cases2.busy_day).
Proof. apply ids_stay_unique, Cases2_busy_day_fresh. Defined.
